(** * MRover arm controller: a shallow embedding of [mrover_arm.cpp]

    The development follows [jetson/ra_kinematics/mrover_arm.cpp]: the
    members of [MRoverArm] become the record [Controller], every LCM
    handler becomes a function on that record, and one pass through the
    body of the [while (true)] loop of [execute_spline] becomes
    [execute_spline_tick].

    Conventions.
    - A finite [double] is a rational ([Q]) and arithmetic on finite
      values is exact: rounding and overflow are not modelled, with one
      exception.  The loop of [preview] counts its passes with a double
      that it increments by [1.0 / 50]; the number of passes depends on
      how that quotient and the running sum are rounded, so the loop
      variable is computed with [double_add] and [double_div], which
      round to the nearest binary64 number.  The three places where the
      executor divides can leave the finite range (division by zero);
      there the value is an [xdouble], a rational extended with the IEEE
      infinities and NaN.  Negative zero is identified with zero.
    - [abs] on doubles is [Qabs] (the headers of the project pull in
      [namespace std], so the call resolves to the floating overload).
    - A [std::vector<double>] or [std::deque<double>] is a [list Q];
      [push_front] is [cons] and [pop_back] is [removelast].  Reading a
      vector out of range (undefined in the source) yields [0] and
      writing out of range does nothing.
    - Every [lcm_.publish] and every call of [FK], [IK], [rrt_connect]
      and [get_spline_pos] appends an [Event] to the controller's log, so
      that "publishes exactly one message" and "makes no IK attempt" are
      statements about that log.
    - Handlers and executor ticks are atomic steps; data races between
      the threads of the source are outside the model. *)

From Stdlib Require Import ZArith QArith Qabs List String Bool Lia Lqa Arith.
From Stdlib Require Import DecimalString.
Import ListNotations.

Open Scope Q_scope.

(* ================================================================== *)
(** ** Doubles *)

Definition Qlt_b (x y : Q) : bool := negb (Qle_bool y x).

(** A double that may have left the finite range. *)
Inductive xdouble : Type :=
| Fin (q : Q)
| PosInf
| NegInf
| NaN.

Definition xadd (x y : xdouble) : xdouble :=
  match x, y with
  | Fin a, Fin b => Fin (a + b)
  | NaN, _ | _, NaN => NaN
  | PosInf, NegInf | NegInf, PosInf => NaN
  | PosInf, _ | _, PosInf => PosInf
  | NegInf, _ | _, NegInf => NegInf
  end.

Definition xflip (x : xdouble) : xdouble :=
  match x with
  | PosInf => NegInf
  | NegInf => PosInf
  | _ => x
  end.

Definition xdiv (x y : xdouble) : xdouble :=
  match x, y with
  | NaN, _ | _, NaN => NaN
  | Fin a, Fin b =>
      if Qeq_bool b 0 then
        if Qeq_bool a 0 then NaN
        else if Qlt_b 0 a then PosInf else NegInf
      else Fin (a / b)
  | Fin _, _ => Fin 0
  | _, Fin b => if Qlt_b b 0 then xflip x else x
  | _, _ => NaN
  end.

(** [x < y] as the hardware decides it: false as soon as a NaN is involved. *)
Definition xlt (x y : xdouble) : bool :=
  match x, y with
  | Fin a, Fin b => Qlt_b a b
  | NegInf, Fin _ | NegInf, PosInf | Fin _, PosInf => true
  | _, _ => false
  end.

Definition xgt (x y : xdouble) : bool := xlt y x.

(** *** Rounding to binary64

    A binary64 number other than zero is [m * 2^e] with
    [2^52 <= |m| < 2^53]; an operation returns the number of that form
    nearest to the exact result, the one with the even [m] when two are
    equally near.  The range of the exponent is not bounded: overflow
    and subnormal numbers are not modelled. *)

(** The integer nearest to [n / d], for [0 <= n]. *)
Definition nearest_even (n : Z) (d : positive) : Z :=
  let (q, r) := Z.div_eucl n (Zpos d) in
  match (2 * r ?= Zpos d)%Z with
  | Lt => q
  | Gt => (q + 1)%Z
  | Eq => if Z.even q then q else (q + 1)%Z
  end.

(** [n / (d * 2^e)] as a fraction *)
Definition scale2 (n : Z) (d : positive) (e : Z) : Z * positive :=
  if (0 <=? e)%Z then (n, (Z.to_pos (2 ^ e) * d)%positive)
  else ((2 ^ (- e) * n)%Z, d).

(** The exponent [e] for which [2^52 <= n / (d * 2^e) < 2^53], for
    [0 < n]: the difference of the binary logarithms of [n] and [d] is
    the logarithm of [n / d] or exceeds it by one. *)
Definition exponent53 (n : Z) (d : positive) : Z :=
  let e0 := (Z.log2 n - Z.log2 (Zpos d) - 52)%Z in
  let (n0, d0) := scale2 n d e0 in
  if (n0 <? 2 ^ 52 * Zpos d0)%Z then (e0 - 1)%Z else e0.

Definition to_double (x : Q) : Q :=
  let n := Z.abs (Qnum x) in
  if (n =? 0)%Z then 0
  else
    let e := exponent53 n (Qden x) in
    let (n1, d1) := scale2 n (Qden x) e in
    let m := nearest_even n1 d1 in
    let v := if (0 <=? e)%Z then inject_Z (m * 2 ^ e)
             else m # Z.to_pos (2 ^ (- e)) in
    if (Qnum x <? 0)%Z then - v else v.

(** [x + y] and [x / y] as the hardware returns them. *)
Definition double_add (x y : Q) : Q := to_double (x + y).
Definition double_div (x y : Q) : Q := to_double (x / y).

(* ================================================================== *)
(** ** Vectors and counted loops *)

(** [v[i] = x] *)
Fixpoint upd {A : Type} (i : nat) (x : A) (v : list A) : list A :=
  match v, i with
  | [], _ => []
  | _ :: v', O => x :: v'
  | y :: v', S i' => y :: upd i' x v'
  end.

(** [for (size_t i = lo; i < lo + n; ++i) s = body(i, s);] *)
Definition for_range {S : Type} (lo n : nat) (body : nat -> S -> S) (s : S) : S :=
  fold_left (fun acc i => body i acc) (seq lo n) s.

Definition of_nat (n : nat) : Q := inject_Z (Z.of_nat n).

(** [std::to_string] on an index *)
Definition to_string (n : nat) : string := NilZero.string_of_uint (Nat.to_uint n).

(* ================================================================== *)
(** ** Messages *)

Record ArmPosition : Type := mkArmPosition {
  joint_a : Q; joint_b : Q; joint_c : Q;
  joint_d : Q; joint_e : Q; joint_f : Q
}.

Record TargetOrientation : Type := mkTargetOrientation {
  tgt_x : Q; tgt_y : Q; tgt_z : Q;
  tgt_alpha : Q; tgt_beta : Q; tgt_gamma : Q;
  use_orientation : bool
}.

Record MotionExecute : Type := mkMotionExecute { preview_flag : bool }.
Record IkEnabled : Type := mkIkEnabled { enabled : bool }.
Record SimulationMode : Type := mkSimulationMode { msg_sim_mode : bool }.
Record ArmControlState : Type := mkArmControlState { msg_state : string }.
Record LockJoints : Type := mkLockJoints {
  jointa : bool; jointb : bool; jointc : bool;
  jointd : bool; jointe : bool; jointf : bool
}.

Record DebugMessage : Type := mkDebugMessage {
  isError : bool;
  message : string
}.

(* ================================================================== *)
(** ** Collaborators whose code is outside [mrover_arm.cpp] *)

(** Modelled from the spec: the class [ArmState] ([arm_state.hpp] is not
    part of the sources).  Section 3 and 4.A of the specification list
    its accessors; only their signatures are fixed here, so every result
    below holds for any implementation of them. *)
Class ArmModel (ArmState Transform : Type) : Type := {
  get_joint_angles : ArmState -> list Q;
  get_joint_angle : ArmState -> nat -> Q;
  set_joint_angles : ArmState -> list Q -> ArmState;
  get_joint_limits : ArmState -> nat -> list Q;
  get_joint_max_speed : ArmState -> nat -> Q;
  get_joint_encoder_offset : ArmState -> nat -> Q;
  get_joint_encoder_multiplier : ArmState -> nat -> Q;
  set_joint_locked : ArmState -> nat -> bool -> ArmState;
  get_joint_transform : ArmState -> nat -> Transform
}.

(** Modelled from the spec: the class [KinematicsSolver] (only its
    declaration, [kinematics.hpp], is part of the sources).  The solver
    is an object with private state (backup stack, iteration counter,
    random source), threaded explicitly; [FK] and [IK] also write the
    [ArmState] they are given.  [is_safe] is the one-argument overload
    used by the controller, a predicate on the configuration
    (section 4.B). *)
Class Kinematics (ArmState Solver : Type) : Type := {
  FK : Solver -> ArmState -> Solver * ArmState;
  IK : Solver -> ArmState -> list Q -> bool -> bool ->
       Solver * ArmState * (list Q * bool);
  is_safe : Solver -> ArmState -> bool
}.

(** Modelled from the spec: the class [MotionPlanner]
    ([motion_planner.hpp] is not part of the sources).  [rrt_connect]
    plans on the state it is given and stores the spline in the planner;
    [get_spline_pos] reads that spline (section 4.C). *)
Class Planning (ArmState Solver Planner : Type) : Type := {
  rrt_connect : Planner -> Solver -> ArmState -> list Q ->
                Planner * Solver * ArmState * bool;
  get_spline_pos : Planner -> xdouble -> list Q
}.

(** Modelled from the spec: the constants of [mrover_arm.hpp] (not part of
    the sources); their names are those the code uses.
    [double_to_string] stands for [std::to_string(double)]. *)
Class Constants : Type := {
  MAX_NUM_PREV_ANGLES : nat;
  MAX_FISHY_VALS : nat;
  ENCODER_ERROR_THRESHOLD : Q;
  DUD_ENCODER_EPSILON : Q;
  ACCEPTABLE_BEYOND_LIMIT : Q;
  D_SPLINE_T : Q;
  SPLINE_WAIT_TIME : Q;
  double_to_string : Q -> string
}.

(* ================================================================== *)
(** ** The controller *)

Inductive LcmMsg (Transform : Type) : Type :=
| MsgDebug (m : DebugMessage)
| MsgArmPosition (p : ArmPosition)
| MsgFKTransform (tm : list Transform).

Arguments MsgDebug {Transform} m.
Arguments MsgArmPosition {Transform} p.
Arguments MsgFKTransform {Transform} tm.

Inductive Event (Transform : Type) : Type :=
| Publish (channel : string) (m : LcmMsg Transform)
| CallFK
| CallIK (set_random_angles : bool)
| CallRRT
| CallSpline (t : xdouble).

Arguments Publish {Transform} channel m.
Arguments CallFK {Transform}.
Arguments CallIK {Transform} set_random_angles.
Arguments CallRRT {Transform}.
Arguments CallSpline {Transform} t.

(** The data members of [MRoverArm]; [lcm_] is the log of events. *)
Record Controller (ArmState Transform Solver Planner : Type) : Type := mkController {
  state : ArmState;
  solver : Solver;
  motion_planner : Planner;
  lcm_ : list (Event Transform);
  enable_execute : bool;
  sim_mode : bool;
  ik_enabled : bool;
  previewing : bool;
  arm_control_state : string;
  prev_angles : list (list Q);
  faulty_encoders : list bool;
  DUD_ENCODER_VALUES : list Q;
  encoder_error : bool;
  encoder_error_message : string
}.

Arguments mkController {ArmState Transform Solver Planner}.
Arguments state {ArmState Transform Solver Planner} c.
Arguments solver {ArmState Transform Solver Planner} c.
Arguments motion_planner {ArmState Transform Solver Planner} c.
Arguments lcm_ {ArmState Transform Solver Planner} c.
Arguments enable_execute {ArmState Transform Solver Planner} c.
Arguments sim_mode {ArmState Transform Solver Planner} c.
Arguments ik_enabled {ArmState Transform Solver Planner} c.
Arguments previewing {ArmState Transform Solver Planner} c.
Arguments arm_control_state {ArmState Transform Solver Planner} c.
Arguments prev_angles {ArmState Transform Solver Planner} c.
Arguments faulty_encoders {ArmState Transform Solver Planner} c.
Arguments DUD_ENCODER_VALUES {ArmState Transform Solver Planner} c.
Arguments encoder_error {ArmState Transform Solver Planner} c.
Arguments encoder_error_message {ArmState Transform Solver Planner} c.

(** The locals of [execute_spline] that survive from one pass of its loop
    to the next. *)
Record Executor : Type := mkExecutor {
  spline_t : xdouble;
  spline_t_iterator : xdouble
}.

Section Arm.

Context {ArmState Transform Solver Planner : Type}.
Context {AM : ArmModel ArmState Transform}.
Context {KS : Kinematics ArmState Solver}.
Context {MP : Planning ArmState Solver Planner}.
Context {K : Constants}.

Local Abbreviation Ctl := (Controller ArmState Transform Solver Planner).
Local Abbreviation Ev := (Event Transform).

(** *** Field updates *)

Definition set_state (c : Ctl) (s : ArmState) : Ctl :=
  mkController s (solver c) (motion_planner c) (lcm_ c) (enable_execute c)
    (sim_mode c) (ik_enabled c) (previewing c) (arm_control_state c)
    (prev_angles c) (faulty_encoders c) (DUD_ENCODER_VALUES c)
    (encoder_error c) (encoder_error_message c).

Definition set_solver (c : Ctl) (s : Solver) : Ctl :=
  mkController (state c) s (motion_planner c) (lcm_ c) (enable_execute c)
    (sim_mode c) (ik_enabled c) (previewing c) (arm_control_state c)
    (prev_angles c) (faulty_encoders c) (DUD_ENCODER_VALUES c)
    (encoder_error c) (encoder_error_message c).

Definition set_motion_planner (c : Ctl) (p : Planner) : Ctl :=
  mkController (state c) (solver c) p (lcm_ c) (enable_execute c)
    (sim_mode c) (ik_enabled c) (previewing c) (arm_control_state c)
    (prev_angles c) (faulty_encoders c) (DUD_ENCODER_VALUES c)
    (encoder_error c) (encoder_error_message c).

Definition emit (c : Ctl) (e : Ev) : Ctl :=
  mkController (state c) (solver c) (motion_planner c) (lcm_ c ++ [e])
    (enable_execute c) (sim_mode c) (ik_enabled c) (previewing c)
    (arm_control_state c) (prev_angles c) (faulty_encoders c)
    (DUD_ENCODER_VALUES c) (encoder_error c) (encoder_error_message c).

(** [c] with the events [evs] appended to its log *)
Definition emit_all (c : Ctl) (evs : list Ev) : Ctl :=
  mkController (state c) (solver c) (motion_planner c) (lcm_ c ++ evs)
    (enable_execute c) (sim_mode c) (ik_enabled c) (previewing c)
    (arm_control_state c) (prev_angles c) (faulty_encoders c)
    (DUD_ENCODER_VALUES c) (encoder_error c) (encoder_error_message c).

Definition set_enable_execute (c : Ctl) (b : bool) : Ctl :=
  mkController (state c) (solver c) (motion_planner c) (lcm_ c) b
    (sim_mode c) (ik_enabled c) (previewing c) (arm_control_state c)
    (prev_angles c) (faulty_encoders c) (DUD_ENCODER_VALUES c)
    (encoder_error c) (encoder_error_message c).

Definition set_sim_mode (c : Ctl) (b : bool) : Ctl :=
  mkController (state c) (solver c) (motion_planner c) (lcm_ c)
    (enable_execute c) b (ik_enabled c) (previewing c) (arm_control_state c)
    (prev_angles c) (faulty_encoders c) (DUD_ENCODER_VALUES c)
    (encoder_error c) (encoder_error_message c).

Definition set_ik_enabled (c : Ctl) (b : bool) : Ctl :=
  mkController (state c) (solver c) (motion_planner c) (lcm_ c)
    (enable_execute c) (sim_mode c) b (previewing c) (arm_control_state c)
    (prev_angles c) (faulty_encoders c) (DUD_ENCODER_VALUES c)
    (encoder_error c) (encoder_error_message c).

Definition set_previewing (c : Ctl) (b : bool) : Ctl :=
  mkController (state c) (solver c) (motion_planner c) (lcm_ c)
    (enable_execute c) (sim_mode c) (ik_enabled c) b (arm_control_state c)
    (prev_angles c) (faulty_encoders c) (DUD_ENCODER_VALUES c)
    (encoder_error c) (encoder_error_message c).

Definition set_arm_control_state (c : Ctl) (s : string) : Ctl :=
  mkController (state c) (solver c) (motion_planner c) (lcm_ c)
    (enable_execute c) (sim_mode c) (ik_enabled c) (previewing c) s
    (prev_angles c) (faulty_encoders c) (DUD_ENCODER_VALUES c)
    (encoder_error c) (encoder_error_message c).

Definition set_prev_angles (c : Ctl) (p : list (list Q)) : Ctl :=
  mkController (state c) (solver c) (motion_planner c) (lcm_ c)
    (enable_execute c) (sim_mode c) (ik_enabled c) (previewing c)
    (arm_control_state c) p (faulty_encoders c) (DUD_ENCODER_VALUES c)
    (encoder_error c) (encoder_error_message c).

Definition set_faulty_encoders (c : Ctl) (f : list bool) : Ctl :=
  mkController (state c) (solver c) (motion_planner c) (lcm_ c)
    (enable_execute c) (sim_mode c) (ik_enabled c) (previewing c)
    (arm_control_state c) (prev_angles c) f (DUD_ENCODER_VALUES c)
    (encoder_error c) (encoder_error_message c).

Definition set_encoder_error (c : Ctl) (b : bool) : Ctl :=
  mkController (state c) (solver c) (motion_planner c) (lcm_ c)
    (enable_execute c) (sim_mode c) (ik_enabled c) (previewing c)
    (arm_control_state c) (prev_angles c) (faulty_encoders c)
    (DUD_ENCODER_VALUES c) b (encoder_error_message c).

Definition set_encoder_error_message (c : Ctl) (s : string) : Ctl :=
  mkController (state c) (solver c) (motion_planner c) (lcm_ c)
    (enable_execute c) (sim_mode c) (ik_enabled c) (previewing c)
    (arm_control_state c) (prev_angles c) (faulty_encoders c)
    (DUD_ENCODER_VALUES c) (encoder_error c) s.

(** [c'] differs from [c] at most in the members the encoder checks
    write: the windows, the fault flags, the error flag and its text. *)
Definition guard_frame (c c' : Ctl) : Prop :=
  state c' = state c /\ solver c' = solver c
  /\ motion_planner c' = motion_planner c /\ lcm_ c' = lcm_ c
  /\ enable_execute c' = enable_execute c /\ sim_mode c' = sim_mode c
  /\ ik_enabled c' = ik_enabled c /\ previewing c' = previewing c
  /\ arm_control_state c' = arm_control_state c
  /\ DUD_ENCODER_VALUES c' = DUD_ENCODER_VALUES c.

(** The shape the constructor gives the members of the guard: six
    windows of one common length and six fault flags. *)
Definition well_formed (c : Ctl) : Prop :=
  List.length (prev_angles c) = 6%nat
  /\ List.length (faulty_encoders c) = 6%nat
  /\ forall j, (j < 6)%nat ->
       List.length (nth j (prev_angles c) []) =
       List.length (nth 0 (prev_angles c) []).

(** [c'] has the windows and fault flags of [c]. *)
Definition keeps_guard (c c' : Ctl) : Prop :=
  prev_angles c' = prev_angles c /\ faulty_encoders c' = faulty_encoders c.

(** *** [MRoverArm::MRoverArm] *)

(** [encoder_error] and [encoder_error_message] are not initialised by the
    constructor; they are arguments here. *)
Definition MRoverArm (geom : ArmState) (sv : Solver) (pl : Planner)
    (err0 : bool) (msg0 : string) : Ctl :=
  mkController geom sv pl [] false true false false "idle"
    (repeat [] 6) (repeat false 6) [0] err0 msg0.

(** *** [MRoverArm::publish_config] and [MRoverArm::publish_transforms] *)

Definition as_arm_position (config : list Q) : ArmPosition :=
  mkArmPosition (nth 0 config 0) (nth 1 config 0) (nth 2 config 0)
                (nth 3 config 0) (nth 4 config 0) (nth 5 config 0).

Definition publish_config (c : Ctl) (config : list Q) (channel : string) : Ctl :=
  let arm_position := as_arm_position config in
  emit c (Publish channel (MsgArmPosition arm_position)).

Definition publish_transforms (c : Ctl) (pub_state : ArmState) : Ctl :=
  emit c (Publish "/fk_transform"
            (MsgFKTransform (map (get_joint_transform pub_state) (seq 0 6)))).

Definition publish_debug (c : Ctl) (is_error : bool) (text : string) : Ctl :=
  emit c (Publish "/debug_message" (MsgDebug (mkDebugMessage is_error text))).

(** *** [MRoverArm::check_dud_encoder] *)

Definition check_dud_encoder (c : Ctl) (angles : list Q) : list Q :=
  for_range 0 (List.length angles) (fun i angles =>
    for_range 0 (List.length (DUD_ENCODER_VALUES c)) (fun j angles =>
      if Qlt_b (Qabs (nth i angles 0 - nth j (DUD_ENCODER_VALUES c) 0))
               DUD_ENCODER_EPSILON
      then upd i (get_joint_angle (state c) i) angles
      else angles) angles) angles.

(** *** [MRoverArm::check_joint_limits] *)

Definition check_joint_limits_at (i : nat) (ca : Ctl * list Q) : Ctl * list Q :=
  let (c, angles) := ca in
  let limits := get_joint_limits (state c) i in
  let a := nth i angles 0 in
  let lo := nth 0 limits 0 in
  let hi := nth 1 limits 0 in
  if Qlt_b a lo && Qlt_b (Qabs (a - lo)) ACCEPTABLE_BEYOND_LIMIT then
    (c, upd i lo angles)
  else if Qlt_b hi a && Qlt_b (Qabs (a - hi)) ACCEPTABLE_BEYOND_LIMIT then
    (c, upd i hi angles)
  else if Qlt_b a lo || Qlt_b hi a then
    (set_encoder_error_message (set_encoder_error c true)
       ("Encoder Error: " ++ double_to_string a ++ " beyond joint "
          ++ to_string i ++ " limits (joint A = 0, F = 5)"),
     angles)
  else (c, angles).

Definition check_joint_limits (c : Ctl) (angles : list Q) : Ctl * list Q :=
  for_range 0 (List.length angles) check_joint_limits_at (c, angles).

(** *** [MRoverArm::arm_position_callback] *)

(** lines 48-51: a raw reading in the units of the model *)
Definition from_encoder_units (st : ArmState) (angles : list Q) : list Q :=
  for_range 0 6 (fun i angles =>
    let a1 := nth i angles 0 - get_joint_encoder_offset st i in
    upd i (a1 * get_joint_encoder_multiplier st i) angles) angles.

Definition mark_faulty (c : Ctl) (joint : nat) : Ctl :=
  set_encoder_error
    (set_encoder_error_message
       (set_faulty_encoders c (upd joint true (faulty_encoders c)))
       (encoder_error_message c ++ ", " ++ to_string joint))
    true.

Definition threshold_at (i : nat) : Q := ENCODER_ERROR_THRESHOLD * of_nat (i + 1).

(** lines 67-80: the inner loop of the branch for a window that is not yet
    full; [w] is what is left of the window and [i] the index of its head.
    The loop leaves at the first violation ([break]). *)
Fixpoint scan_partial (a : Q) (w : list Q) (i joint : nat) (c : Ctl) : Ctl :=
  match w with
  | [] => c
  | p :: w' =>
      let diff := Qabs (a - p) in
      if Qlt_b (threshold_at i) diff then mark_faulty c joint
      else
        let c' := match w' with
                  | [] => set_faulty_encoders c (upd joint false (faulty_encoders c))
                  | _ :: _ => c
                  end in
        scan_partial a w' (S i) joint c'
  end.

(** lines 87-96: the number of comparisons the reading fails against a
    full window *)
Definition num_fishy_vals (a : Q) (w : list Q) : nat :=
  for_range 0 MAX_NUM_PREV_ANGLES (fun i n =>
    let diff := Qabs (a - nth i w 0) in
    if Qlt_b (threshold_at i) diff then S n else n) 0%nat.

(** The comparison of index [k]: is the reading [a] further from entry
    [k] of the window than the threshold scaled by [k + 1]? *)
Definition violated (a : Q) (w : list Q) (k : nat) : bool :=
  Qlt_b (threshold_at k) (Qabs (a - nth k w 0)).

Definition scan_full (angles : list Q) (joint : nat) (c : Ctl) : Ctl :=
  if Nat.ltb MAX_FISHY_VALS
       (num_fishy_vals (nth joint angles 0) (nth joint (prev_angles c) []))
  then mark_faulty c joint
  else set_faulty_encoders c (upd joint false (faulty_encoders c)).

(** lines 60-108 *)
Definition jump_check (c : Ctl) (angles : list Q) : Ctl :=
  if Nat.ltb (List.length (nth 0 (prev_angles c) [])) MAX_NUM_PREV_ANGLES then
    for_range 0 6 (fun joint c =>
      scan_partial (nth joint angles 0) (nth joint (prev_angles c) []) 0 joint c) c
  else
    for_range 0 6 (scan_full angles) c.

(** lines 110-120: one pass of the loop that stores the reading and then
    substitutes the model angle for a faulty joint *)
Definition push_reading (a : Q) (w : list Q) : list Q :=
  let w1 := if Nat.leb MAX_NUM_PREV_ANGLES (List.length w) then removelast w else w in
  a :: w1.

Definition store_at (joint : nat) (ca : Ctl * list Q) : Ctl * list Q :=
  let (c, angles) := ca in
  let w := nth joint (prev_angles c) [] in
  let c1 := set_prev_angles c
              (upd joint (push_reading (nth joint angles 0) w) (prev_angles c)) in
  if nth joint (faulty_encoders c1) false then
    (c1, upd joint (get_joint_angle (state c1) joint) angles)
  else (c1, angles).

Definition store_readings (c : Ctl) (angles : list Q) : Ctl * list Q :=
  for_range 0 6 store_at (c, angles).

Definition msg_angles (msg : ArmPosition) : list Q :=
  [joint_a msg; joint_b msg; joint_c msg; joint_d msg; joint_e msg; joint_f msg].

(** The readings as they stand after the dud and limit checks (line 58). *)
Definition checked_readings (c : Ctl) (msg : ArmPosition) : Ctl * list Q :=
  let angles :=
    if negb (sim_mode c) then from_encoder_units (state c) (msg_angles msg)
    else msg_angles msg in
  let c1 := set_encoder_error c false in
  let c2 := set_encoder_error_message c1
              "Encoder Error in encoder(s) (joint A = 0, F = 5): " in
  let angles1 := check_dud_encoder c2 angles in
  check_joint_limits c2 angles1.

(** The readings handed on after line 120, with the controller as it is
    there. *)
Definition sanitize (c : Ctl) (msg : ArmPosition) : Ctl * list Q :=
  let (c3, angles2) := checked_readings c msg in
  let c4 := jump_check c3 angles2 in
  store_readings c4 angles2.

Definition arm_position_callback (c : Ctl) (msg : ArmPosition) : Ctl :=
  let (c5, angles3) := sanitize c msg in
  if negb (previewing c5) then
    let c6 := set_state c5 (set_joint_angles (state c5) angles3) in
    let (sv, st) := FK (solver c6) (state c6) in
    let c7 := emit (set_state (set_solver c6 sv) st) CallFK in
    publish_transforms c7 (state c7)
  else c5.

(** *** [MRoverArm::preview] *)

(** line 365 *)
Definition num_steps : Q := 50.

(** The [while (t <= 1)] loop, lines 368-382; [fuel] bounds the number of
    passes and the final [t] is returned so that leaving the loop can be
    told from running out of fuel.  [t] is a double and line 380,
    [t += 1.0 / num_steps], rounds twice. *)
Fixpoint preview_loop (fuel : nat) (c : Ctl) (hypo_state : ArmState) (t : Q)
    : Ctl * ArmState * Q :=
  match fuel with
  | O => (c, hypo_state, t)
  | S fuel' =>
      if Qle_bool t 1 then
        let target := get_spline_pos (motion_planner c) (Fin t) in
        let c1 := emit c (CallSpline (Fin t)) in
        let hypo1 := set_joint_angles hypo_state target in
        let (sv, hypo2) := FK (solver c1) hypo1 in
        let c2 := emit (set_solver c1 sv) CallFK in
        let c3 := publish_transforms c2 hypo2 in
        preview_loop fuel' c3 hypo2 (double_add t (double_div 1 num_steps))
      else (c, hypo_state, t)
  end.

(** The loop variable alone: the value of [t] after at most [fuel]
    passes. *)
Fixpoint preview_clock (fuel : nat) (t : Q) : Q :=
  match fuel with
  | O => t
  | S fuel' =>
      if Qle_bool t 1 then
        preview_clock fuel' (double_add t (double_div 1 num_steps))
      else t
  end.

(** The values of [t] at which the passes are made. *)
Fixpoint preview_times (fuel : nat) (t : Q) : list Q :=
  match fuel with
  | O => []
  | S fuel' =>
      if Qle_bool t 1 then
        t :: preview_times fuel' (double_add t (double_div 1 num_steps))
      else []
  end.

(** The quotient [1.0 / 50] is rounded up, and the fiftieth sum is the
    first above 1: the loop makes 50 passes, and a 51st test of its
    condition ends it. *)
Definition preview_fuel : nat := 51.

Definition preview (c : Ctl) (hypo_state : ArmState) : Ctl * ArmState :=
  let c1 := set_previewing (set_ik_enabled c true) true in
  let '(c2, hypo1, _) := preview_loop preview_fuel c1 hypo_state 0 in
  let c3 := publish_debug c2 false "Preview Done" in
  (set_previewing c3 false, hypo1).

(** *** [MRoverArm::plan_path] *)

Definition plan_path (c : Ctl) (hypo_state : ArmState) (goal : list Q)
    : Ctl * ArmState :=
  let '(pl, sv, hypo1, path_found) :=
    rrt_connect (motion_planner c) (solver c) hypo_state goal in
  let c1 := emit (set_solver (set_motion_planner c pl) sv) CallRRT in
  if path_found then preview c1 hypo1
  else (publish_debug c1 false "Unable to plan path!", hypo1).

(** *** [MRoverArm::target_orientation_callback] *)

Definition call_IK (c : Ctl) (hypo_state : ArmState) (point : list Q)
    (set_random_angles use_orient : bool) : Ctl * ArmState * (list Q * bool) :=
  let '(sv, hypo1, ik_solution) :=
    IK (solver c) hypo_state point set_random_angles use_orient in
  (emit (set_solver c sv) (CallIK set_random_angles), hypo1, ik_solution).

(** lines 186-193: [n] is the number of passes still to run *)
Fixpoint ik_restarts (n : nat) (c : Ctl) (hypo_state : ArmState)
    (point : list Q) (use_orient : bool) (ik_solution : list Q * bool)
    : Ctl * ArmState * (list Q * bool) :=
  match n with
  | O => (c, hypo_state, ik_solution)
  | S n' =>
      if snd ik_solution then (c, hypo_state, ik_solution)
      else
        let '(c1, hypo1, sol1) := call_IK c hypo_state point true use_orient in
        ik_restarts n' c1 hypo1 point use_orient sol1
  end.

Definition target_orientation_callback (c : Ctl) (msg : TargetOrientation) : Ctl :=
  if negb (is_safe (solver c) (state c)) then
    publish_debug c false "Unsafe Starting Position"
  else
    let c1 := set_enable_execute c false in
    let use_orient := use_orientation msg in
    let point := [tgt_x msg; tgt_y msg; tgt_z msg;
                  tgt_alpha msg; tgt_beta msg; tgt_gamma msg] in
    let hypo_state := state c1 in
    let '(c2, hypo1, sol1) := call_IK c1 hypo_state point false use_orient in
    let '(c3, hypo2, ik_solution) := ik_restarts 25 c2 hypo1 point use_orient sol1 in
    if negb (snd ik_solution) then
      publish_debug c3 false "No IK solution"
    else fst (plan_path c3 hypo2 (fst ik_solution)).

(** *** [MRoverArm::target_angles_callback] *)

Definition target_angles_callback (c : Ctl) (msg : ArmPosition) : Ctl :=
  let c1 := set_enable_execute c false in
  let hypo_state := state c1 in
  fst (plan_path c1 hypo_state (msg_angles msg)).

(** *** [MRoverArm::motion_execute_callback] *)

Definition motion_execute_callback (c : Ctl) (msg : MotionExecute) : Ctl :=
  if preview_flag msg then c
  else set_enable_execute c true.

(** *** [MRoverArm::ik_enabled_callback] *)

Definition ik_enabled_callback (c : Ctl) (msg : IkEnabled) : Ctl :=
  let c1 := set_ik_enabled c (enabled msg) in
  if negb (ik_enabled c1) then
    let c2 := set_enable_execute c1 false in
    publish_transforms c2 (state c2)
  else c1.

(** *** The remaining handlers *)

Definition simulation_mode_callback (c : Ctl) (msg : SimulationMode) : Ctl :=
  set_sim_mode c (msg_sim_mode msg).

Definition lock_joints_callback (c : Ctl) (msg : LockJoints) : Ctl :=
  let s0 := set_joint_locked (state c) 0 (jointa msg) in
  let s1 := set_joint_locked s0 1 (jointb msg) in
  let s2 := set_joint_locked s1 2 (jointc msg) in
  let s3 := set_joint_locked s2 3 (jointd msg) in
  let s4 := set_joint_locked s3 4 (jointe msg) in
  set_state c (set_joint_locked s4 5 (jointf msg)).

Definition ra_control_callback (c : Ctl) (msg : ArmControlState) : Ctl :=
  set_arm_control_state c (msg_state msg).

(** One pass of the loop of [MRoverArm::encoder_angles_sender]. *)
Definition encoder_angles_sender_tick (c : Ctl) : Ctl :=
  if sim_mode c then
    let arm_position :=
      mkArmPosition (get_joint_angle (state c) 0) (get_joint_angle (state c) 1)
                    (get_joint_angle (state c) 2) (get_joint_angle (state c) 3)
                    (get_joint_angle (state c) 4) (get_joint_angle (state c) 5) in
    emit c (Publish "/arm_position" (MsgArmPosition arm_position))
  else c.

(** *** [MRoverArm::execute_spline] *)

(** lines 269-279: the time, in ms, the slowest of joints a to e needs to
    reach the look-ahead point *)
Definition joint_time (st : ArmState) (init_angles final_angles : list Q)
    (i : nat) : xdouble :=
  let max_speed := get_joint_max_speed st i * 3 / 4 in
  xdiv (Fin (Qabs (nth i final_angles 0 - nth i init_angles 0)))
       (Fin (max_speed / 1000)).

Definition max_time_of (st : ArmState) (init_angles final_angles : list Q)
    : xdouble :=
  for_range 0 5 (fun i max_time =>
    let jt := joint_time st init_angles final_angles i in
    if xlt max_time jt then jt else max_time) (Fin (-1)).

(** What lines 299-304 make of one angle. *)
Definition clamp (lo hi x : Q) : Q :=
  if Qlt_b x lo then lo else if Qlt_b hi x then hi else x.

(** lines 298-305 *)
Definition clamp_to_limits (st : ArmState) (target_angles : list Q) : list Q :=
  for_range 0 6 (fun i target_angles =>
    let lo := nth 0 (get_joint_limits st i) 0 in
    let hi := nth 1 (get_joint_limits st i) 0 in
    if Qlt_b (nth i target_angles 0) lo then upd i lo target_angles
    else if Qlt_b hi (nth i target_angles 0) then upd i hi target_angles
    else target_angles) target_angles.

(** lines 312-315: the setpoint in the units of the encoders *)
Definition to_encoder_units (st : ArmState) (target_angles : list Q) : list Q :=
  for_range 0 6 (fun i target_angles =>
    let a1 := nth i target_angles 0 * get_joint_encoder_multiplier st i in
    upd i (a1 + get_joint_encoder_offset st i) target_angles) target_angles.

(** What [publish_config] puts on /ik_ra_control for the setpoint
    [target_angles] (lines 312-317), and what [arm_position_callback]
    makes of a raw message in hardware mode (lines 38-52). *)
Definition emitted_setpoint (st : ArmState) (target_angles : list Q) : ArmPosition :=
  as_arm_position (to_encoder_units st target_angles).

Definition intake (st : ArmState) (msg : ArmPosition) : list Q :=
  from_encoder_units st (msg_angles msg).

(** lines 244-261 *)
Definition abort_on_encoder_error (c : Ctl) (e : Executor) : Ctl * Executor :=
  let c1 := set_enable_execute c false in
  let e1 := mkExecutor (Fin 0) (spline_t_iterator e) in
  let c2 := set_ik_enabled c1 false in
  let c3 := publish_debug c2 true (encoder_error_message c2) in
  let c4 :=
    if sim_mode c3 then
      for_range 0 MAX_NUM_PREV_ANGLES (fun _ c =>
        publish_config c (get_joint_angles (state c)) "/arm_position") c3
    else c3 in
  (c4, e1).

(** lines 264-326 *)
Definition advance_spline (c : Ctl) (e : Executor) : Ctl * Executor :=
  let init_angles := get_joint_angles (state c) in
  let ahead := xadd (spline_t e) (Fin D_SPLINE_T) in
  let final_angles := get_spline_pos (motion_planner c) ahead in
  let c1 := emit c (CallSpline ahead) in
  let max_time := max_time_of (state c1) init_angles final_angles in
  let it := xdiv (Fin D_SPLINE_T) (xdiv max_time (Fin SPLINE_WAIT_TIME)) in
  let t1 := xadd (spline_t e) it in
  if xgt t1 (Fin 1) then
    (set_ik_enabled (set_enable_execute c1 false) false, mkExecutor (Fin 0) it)
  else
    let target_angles := get_spline_pos (motion_planner c1) t1 in
    let c2 := emit c1 (CallSpline t1) in
    let target1 := clamp_to_limits (state c2) target_angles in
    if negb (sim_mode c2) then
      let target2 := to_encoder_units (state c2) target1 in
      (publish_config c2 target2 "/ik_ra_control", mkExecutor t1 it)
    else if sim_mode c2 then
      (set_state c2 (set_joint_angles (state c2) target1), mkExecutor t1 it)
    else (c2, mkExecutor t1 it).

(** The values a pass computes on its way: the look-ahead point
    ([final_angles]), the increment of the spline parameter
    ([spline_t_iterator]) and the clamped setpoint ([target_angles] after
    line 305). *)
Definition lookahead (c : Ctl) (e : Executor) : list Q :=
  get_spline_pos (motion_planner c) (xadd (spline_t e) (Fin D_SPLINE_T)).

Definition pace (c : Ctl) (e : Executor) : xdouble :=
  xdiv (Fin D_SPLINE_T)
       (xdiv (max_time_of (state c) (get_joint_angles (state c)) (lookahead c e))
             (Fin SPLINE_WAIT_TIME)).

Definition commanded (c : Ctl) (e : Executor) : list Q :=
  clamp_to_limits (state c)
    (get_spline_pos (motion_planner c) (xadd (spline_t e) (pace c e))).

(** The bound of the executor on the change of joint [i] in one pass, in
    radians: three quarters of its top speed for [SPLINE_WAIT_TIME] ms. *)
Definition rate_bound (st : ArmState) (i : nat) : Q :=
  get_joint_max_speed st i * 0.75 * SPLINE_WAIT_TIME / 1000.

(** One pass through the body of [while (true)]. *)
Definition execute_spline_tick (c : Ctl) (e : Executor) : Ctl * Executor :=
  if enable_execute c then
    if encoder_error c then abort_on_encoder_error c e
    else advance_spline c e
  else (c, mkExecutor (Fin 0) (Fin 0.001)).

(** The locals as [execute_spline] declares them. *)
Definition executor_start : Executor := mkExecutor (Fin 0) (Fin 0.001).

(** *** The controller as a transition system *)

Inductive Input : Type :=
| InArmPosition (msg : ArmPosition)
| InTargetOrientation (msg : TargetOrientation)
| InTargetAngles (msg : ArmPosition)
| InMotionExecute (msg : MotionExecute)
| InIkEnabled (msg : IkEnabled)
| InSimulationMode (msg : SimulationMode)
| InLockJoints (msg : LockJoints)
| InArmControlState (msg : ArmControlState)
| ExecutorTick
| EncoderSenderTick.

Definition step (s : Ctl * Executor) (i : Input) : Ctl * Executor :=
  let (c, e) := s in
  match i with
  | InArmPosition msg => (arm_position_callback c msg, e)
  | InTargetOrientation msg => (target_orientation_callback c msg, e)
  | InTargetAngles msg => (target_angles_callback c msg, e)
  | InMotionExecute msg => (motion_execute_callback c msg, e)
  | InIkEnabled msg => (ik_enabled_callback c msg, e)
  | InSimulationMode msg => (simulation_mode_callback c msg, e)
  | InLockJoints msg => (lock_joints_callback c msg, e)
  | InArmControlState msg => (ra_control_callback c msg, e)
  | ExecutorTick => execute_spline_tick c e
  | EncoderSenderTick => (encoder_angles_sender_tick c, e)
  end.

Definition run (s : Ctl * Executor) (inputs : list Input) : Ctl * Executor :=
  fold_left step inputs s.

(** A state is reachable when some sequence of messages and ticks leads to
    it from a freshly constructed controller. *)
Definition reachable (s : Ctl * Executor) : Prop :=
  exists geom sv pl err0 msg0 inputs,
    s = run (MRoverArm geom sv pl err0 msg0, executor_start) inputs.

End Arm.

(* ================================================================== *)
(** ** Vocabulary for the statements about the handlers *)

Section Observations.

Context {ArmState Transform Solver Planner : Type}.
Context {AM : ArmModel ArmState Transform}.
Context {K : Constants}.

Local Abbreviation Ctl := (Controller ArmState Transform Solver Planner).

(** What the passes [j = 0 .. n-1] of the inner loop of
    [check_dud_encoder] make of one reading [x], [m] being the angle of
    the model (lines 517-521). *)
Definition dud_passes (m : Q) (duds : list Q) (n : nat) (x : Q) : Q :=
  for_range 0 n (fun j x =>
    if Qlt_b (Qabs (x - nth j duds 0)) DUD_ENCODER_EPSILON then m else x) x.

(** What one pass of [check_joint_limits] makes of the reading [a] of a
    joint with limits [lo] and [hi] (lines 528-533), and whether it
    raises the error (lines 534-537). *)
Definition limit_fix (lo hi a : Q) : Q :=
  if Qlt_b a lo && Qlt_b (Qabs (a - lo)) ACCEPTABLE_BEYOND_LIMIT then lo
  else if Qlt_b hi a && Qlt_b (Qabs (a - hi)) ACCEPTABLE_BEYOND_LIMIT then hi
  else a.

Definition limit_breach (lo hi a : Q) : bool :=
  if Qlt_b a lo && Qlt_b (Qabs (a - lo)) ACCEPTABLE_BEYOND_LIMIT then false
  else if Qlt_b hi a && Qlt_b (Qabs (a - hi)) ACCEPTABLE_BEYOND_LIMIT then false
  else Qlt_b a lo || Qlt_b hi a.

(** Is some comparison of the reading [a] with the window [w] failed? *)
Definition jumps (a : Q) (w : list Q) : bool :=
  existsb (violated a w) (seq 0 (List.length w)).

(** The comparisons the inner loop of the partial branch makes from index
    [i] on (lines 67-75): is one of them failed? *)
Fixpoint jumps_from (i : nat) (a : Q) (w : list Q) : bool :=
  match w with
  | [] => false
  | p :: w' => Qlt_b (threshold_at i) (Qabs (a - p)) || jumps_from (S i) a w'
  end.

(** [c'] differs from [c] at most in the solver, the planner, the log and
    the flags [ik_enabled] and [previewing]: what planning and previewing
    may write. *)
Definition command_frame (c c' : Ctl) : Prop :=
  state c' = state c
  /\ enable_execute c' = enable_execute c
  /\ sim_mode c' = sim_mode c
  /\ arm_control_state c' = arm_control_state c
  /\ prev_angles c' = prev_angles c
  /\ faulty_encoders c' = faulty_encoders c
  /\ DUD_ENCODER_VALUES c' = DUD_ENCODER_VALUES c
  /\ encoder_error c' = encoder_error c
  /\ encoder_error_message c' = encoder_error_message c.

(** The events of a preview frame: a query of the spline inside [0, 1],
    a call of [FK], or a publication on /fk_transform. *)
Definition frame_event (ev : Event Transform) : Prop :=
  match ev with
  | CallSpline (Fin q) => 0 <= q /\ q <= 1
  | CallFK => True
  | Publish channel (MsgFKTransform _) => channel = "/fk_transform"%string
  | _ => False
  end.

(** The events of the frames drawn at the parameters [ts], in order:
    for each a query of the spline, a call of [FK] and a publication of
    transforms on /fk_transform. *)
Inductive frames_at : list Q -> list (Event Transform) -> Prop :=
| frames_done : frames_at [] []
| frames_next (t : Q) (ts : list Q) (tm : list Transform)
      (evs : list (Event Transform)) :
    frames_at ts evs ->
    frames_at (t :: ts)
      (CallSpline (Fin t) :: CallFK
         :: Publish "/fk_transform" (MsgFKTransform tm) :: evs).

(** The events that follow a call of the planner: frames and popups. *)
Definition plan_event (ev : Event Transform) : Prop :=
  frame_event ev
  \/ exists text,
       ev = Publish "/debug_message" (MsgDebug (mkDebugMessage false text)).

Definition is_IK_call (ev : Event Transform) : bool :=
  match ev with
  | CallIK _ => true
  | _ => false
  end.

End Observations.

(* ================================================================== *)
(** ** A small arm to run the controller on

    The instances below stand in for the classes that are not part of
    [mrover_arm.cpp], so that the handlers can be evaluated on concrete
    messages.  The arm is a six-joint chain whose "transform" of joint
    [i] is the accumulated rotation up to [i]; a pose is identified with
    a joint vector; the planner joins start and goal by one polynomial
    segment, straight or with the cubic ease [3t^2 - 2t^3]. *)

Module Rig.

Record Joint : Type := mkJoint {
  lo : Q; hi : Q;
  max_speed : Q;
  offset : Q; multiplier : Q;
  locked : bool
}.

Record Arm : Type := mkArm {
  joints : list Joint;
  angles : list Q;
  transforms : list Q
}.

Definition no_joint : Joint := mkJoint 0 0 0 0 1 false.

Definition joint_at (a : Arm) (i : nat) : Joint := nth i (joints a) no_joint.

Definition tolerance : Q := 0.05.

(** section 4.A: a breach of a limit by less than the tolerance is clamped *)
Definition settle (j : Joint) (x : Q) : Q :=
  if Qlt_b x (lo j) && Qlt_b (lo j - x) tolerance then lo j
  else if Qlt_b (hi j) x && Qlt_b (x - hi j) tolerance then hi j
  else x.

(** Angles are stored as fractions in lowest terms. *)
Fixpoint settle_all (js : list Joint) (v : list Q) : list Q :=
  match js, v with
  | j :: js', x :: v' => Qred (settle j x) :: settle_all js' v'
  | _, _ => v
  end.

Definition lock (i : nat) (b : bool) (a : Arm) : Arm :=
  let j := joint_at a i in
  mkArm (upd i (mkJoint (lo j) (hi j) (max_speed j) (offset j) (multiplier j) b)
             (joints a))
        (angles a) (transforms a).

#[export] Instance arm_model : ArmModel Arm Q := {|
  get_joint_angles := angles;
  get_joint_angle := fun a i => nth i (angles a) 0;
  set_joint_angles := fun a v =>
    mkArm (joints a) (settle_all (joints a) v) (transforms a);
  get_joint_limits := fun a i => [lo (joint_at a i); hi (joint_at a i)];
  get_joint_max_speed := fun a i => max_speed (joint_at a i);
  get_joint_encoder_offset := fun a i => offset (joint_at a i);
  get_joint_encoder_multiplier := fun a i => multiplier (joint_at a i);
  set_joint_locked := fun a i b => lock i b a;
  get_joint_transform := fun a i => nth i (transforms a) 0
|}.

Fixpoint running_sum (acc : Q) (v : list Q) : list Q :=
  match v with
  | [] => []
  | x :: v' => (acc + x) :: running_sum (acc + x) v'
  end.

Fixpoint within_limits (js : list Joint) (v : list Q) : bool :=
  match js, v with
  | j :: js', x :: v' =>
      Qle_bool (lo j) x && Qle_bool x (hi j) && within_limits js' v'
  | _, _ => true
  end.

(** The solver counts its calls to [IK]. *)
#[export] Instance kinematics : Kinematics Arm nat := {|
  FK := fun sv a => (sv, mkArm (joints a) (angles a) (running_sum 0 (angles a)));
  IK := fun sv a point _ _ =>
    if within_limits (joints a) point
    then (S sv, mkArm (joints a) point (transforms a), (point, true))
    else (S sv, a, (angles a, false));
  is_safe := fun _ a => within_limits (joints a) (angles a)
|}.

Record Plan : Type := mkPlan {
  eased : bool;
  start : list Q;
  goal : list Q
}.

(** How far along the segment the plan is at parameter [t]. *)
Definition progress (eased : bool) (t : Q) : Q :=
  if eased then 3 * t * t - 2 * t * t * t else t.

(** The point at the fraction [s] of the way from [a] to [b], in lowest
    terms. *)
Fixpoint blend (s : Q) (a b : list Q) : list Q :=
  match a, b with
  | x :: a', y :: b' => Qred (x + s * (y - x)) :: blend s a' b'
  | _, _ => []
  end.

#[export] Instance planning : Planning Arm nat Plan := {|
  rrt_connect := fun pl sv a g =>
    if within_limits (joints a) g
    then (mkPlan (eased pl) (angles a) g, sv, a, true)
    else (pl, sv, a, false);
  get_spline_pos := fun pl t =>
    match t with
    | Fin q => blend (progress (eased pl) q) (start pl) (goal pl)
    | _ => goal pl
    end
|}.

(** Decimal rendering with six places, truncated. *)
Definition show (x : Q) : string :=
  let n := (Qnum x * 1000000 / Zpos (Qden x))%Z in
  let digits := NilZero.string_of_int (Z.to_int (Z.abs n)) in
  ((if (n <? 0)%Z then "-" else "") ++ digits ++ "e-6")%string.

#[export] Instance constants : Constants := {|
  MAX_NUM_PREV_ANGLES := 5;
  MAX_FISHY_VALS := 1;
  ENCODER_ERROR_THRESHOLD := 0.2;
  DUD_ENCODER_EPSILON := 0.00000001;
  ACCEPTABLE_BEYOND_LIMIT := tolerance;
  D_SPLINE_T := 0.05;
  SPLINE_WAIT_TIME := 20;
  double_to_string := show
|}.

Definition joint6 : Joint := mkJoint (-3) 3 1 0 1 false.

Definition home : Arm :=
  mkArm (repeat joint6 6) (repeat 0 6) (repeat 0 6).

Definition Ctl : Type := Controller Arm Q nat Plan.

Definition boot (a : Arm) (eased : bool) : Ctl * Executor :=
  (MRoverArm a 0%nat (mkPlan eased (angles a) (angles a)) false "", executor_start).

(** Messages and runs used below. *)

Definition reading (a b c d e f : Q) : ArmPosition := mkArmPosition a b c d e f.

Definition confirm : MotionExecute := mkMotionExecute false.
Definition preview_only : MotionExecute := mkMotionExecute true.

Definition far_goal : ArmPosition := reading 0.5 (-0.3) 0.4 0 0.2 0.

(** The operator sends a joint target and confirms the preview. *)
Definition executing (eased : bool) : Ctl * Executor :=
  run (boot home eased) [InTargetAngles far_goal; InMotionExecute confirm].

(** The executor has run 32 passes along the straight plan. *)
Definition near_the_end : Ctl * Executor :=
  run (executing false) (repeat ExecutorTick 32).

Definition parameter_of (e : Executor) : Q :=
  match spline_t e with Fin q => q | _ => 0 end.


(** Five identical healthy messages fill the windows. *)
Definition steady : ArmPosition := reading 0.2 0.2 0.2 0.2 0.2 0.2.
Definition outlier : ArmPosition := reading 2 0.2 0.2 0.2 0.2 0.2.

Definition windows_full : Ctl :=
  fst (run (boot home false) (repeat (InArmPosition steady) 5)).

Definition after_outlier : Ctl := arm_position_callback windows_full outlier.

(** An arm resting beyond the upper limit of joint a. *)
Definition overbent : Arm :=
  mkArm (repeat joint6 6) [4; 0; 0; 0; 0; 0] (repeat 0 6).

Definition a_pose : TargetOrientation :=
  mkTargetOrientation 0.6 0 0.5 0 0 0 false.

(** Arms whose joint a has an encoder multiplier of 2, and of -1. *)
Definition geared : Arm :=
  mkArm (mkJoint (-3) 3 1 0.3 2 false :: repeat joint6 5) (repeat 0 6) (repeat 0 6).

Definition mirrored : Arm :=
  mkArm (mkJoint (-3) 3 1 0.3 (-1) false :: repeat joint6 5) (repeat 0 6) (repeat 0 6).

Definition unit_angles : list Q := [1; 1; 1; 1; 1; 1].

(** A reading of exactly 0 on joint c is in the dud list. *)
Definition dud_on_c : ArmPosition := reading 0.2 0.2 0 0.2 0.2 0.2.

(** Readings close to the upper limit of 3, then one just past the
    tolerance of 0.05. *)
Definition high : ArmPosition := reading 2.95 0.2 0.2 0.2 0.2 0.2.
Definition past_limit : ArmPosition := reading 3.06 0.2 0.2 0.2 0.2 0.2.
Definition back_inside : ArmPosition := reading 2.96 0.2 0.2 0.2 0.2 0.2.

Definition windows_high : Ctl :=
  fst (run (boot home false) (repeat (InArmPosition high) 5)).

Definition is_frame (ev : Event Q) : bool :=
  match ev with
  | Publish channel (MsgFKTransform _) => String.eqb channel "/fk_transform"
  | _ => false
  end.

(** Two healthy messages: the windows are filling. *)
Definition windows_filling : Ctl :=
  fst (run (boot home false) (repeat (InArmPosition steady) 2)).


(** A joint target and a pose beyond the limits of joint a. *)
Definition out_of_reach : ArmPosition := reading 5 0 0 0 0 0.

Definition unreachable_pose : TargetOrientation :=
  mkTargetOrientation 10 0 0 0 0 0 false.

Definition same_joints (a : Arm) : Prop := joints a = joints home.

(** The operator asks for the configuration the arm is in. *)
Definition executing_in_place : Ctl * Executor :=
  run (boot home false)
      [InTargetAngles (reading 0 0 0 0 0 0); InMotionExecute confirm].

Definition six : list Q := [1; 2; 3; 4; 5; 6].
Definition six_but_f : list Q := [1; 2; 3; 4; 5; 60].

(** The geared arm in hardware mode, with a joint target confirmed. *)
Definition geared_start : Ctl * Executor :=
  run (boot geared false)
      [InSimulationMode (mkSimulationMode false); InTargetAngles far_goal;
       InMotionExecute confirm].

(** A reading of joint a that is 0.3 away from the two stored ones: it
    fails the comparison with the newest (threshold 0.2) and passes the
    one with the older (threshold 0.4). *)
Definition nudged : ArmPosition := reading 0.5 0.2 0.2 0.2 0.2 0.2.




End Rig.

(* ================================================================== *)
(** * Properties *)

Lemma Qlt_b_true (x y : Q) : Qlt_b x y = true <-> x < y.
Proof.
  unfold Qlt_b. rewrite negb_true_iff. split.
  - intros H. apply Qnot_le_lt. intros Hle.
    apply Qle_bool_iff in Hle. congruence.
  - intros H. destruct (Qle_bool y x) eqn:E; [|reflexivity].
    apply Qle_bool_iff in E. exfalso. apply (Qlt_not_le _ _ H E).
Qed.

Lemma Qlt_b_false (x y : Q) : Qlt_b x y = false <-> y <= x.
Proof.
  unfold Qlt_b. rewrite negb_false_iff. apply Qle_bool_iff.
Qed.


Lemma of_nat_S (n : nat) : of_nat (S n) == of_nat n + 1.
Proof.
  unfold of_nat. rewrite Nat2Z.inj_succ. unfold Z.succ.
  rewrite inject_Z_plus. reflexivity.
Qed.

Lemma of_nat_nonneg (n : nat) : 0 <= of_nat n.
Proof.
  unfold of_nat. change 0 with (inject_Z 0). rewrite <- Zle_Qle. lia.
Qed.

(** ** Counted loops and vector updates *)

Lemma for_range_S {S : Type} (lo n : nat) (body : nat -> S -> S) (s : S) :
  for_range lo (Datatypes.S n) body s = body (lo + n)%nat (for_range lo n body s).
Proof.
  unfold for_range. rewrite seq_S, fold_left_app. reflexivity.
Qed.

Lemma for_range_0 {S : Type} (lo : nat) (body : nat -> S -> S) (s : S) :
  for_range lo 0 body s = s.
Proof. reflexivity. Qed.

Lemma length_upd {A : Type} (i : nat) (x : A) (v : list A) :
  List.length (upd i x v) = List.length v.
Proof.
  revert i. induction v as [|y v IH]; intros [|i]; simpl; auto.
Qed.

Lemma nth_upd_same {A : Type} (i : nat) (x d : A) (v : list A) :
  (i < List.length v)%nat -> nth i (upd i x v) d = x.
Proof.
  revert i. induction v as [|y v IH]; intros [|i] H; simpl in *; try lia; auto.
  apply IH. lia.
Qed.

Lemma nth_upd_other {A : Type} (i j : nat) (x d : A) (v : list A) :
  i <> j -> nth j (upd i x v) d = nth j v d.
Proof.
  revert i j. induction v as [|y v IH]; intros [|i] [|j] H; simpl; auto; try lia.
Qed.

Section ArmFacts.

Context {ArmState Transform Solver Planner : Type}.
Context {AM : ArmModel ArmState Transform}.
Context {KS : Kinematics ArmState Solver}.
Context {MP : Planning ArmState Solver Planner}.
Context {K : Constants}.

Local Abbreviation Ctl := (Controller ArmState Transform Solver Planner).

(** ** [motion_execute_callback] *)

(** C2 (as the code has it): a [motion_execute] message with
    [preview = true] is ignored.  The controller, and with it
    [enable_execute], is exactly what it was before the message. *)
Theorem motion_execute_preview_ignored (c : Ctl) :
  motion_execute_callback c (mkMotionExecute true) = c.
Proof. reflexivity. Qed.

(** ** [target_orientation_callback] *)

(** C3: a target pose that arrives while the current configuration is not
    safe adds one event to the log, the publication of
    "Unsafe Starting Position" on /debug_message (so there is no call to
    IK or to the planner), and leaves every other member of the
    controller as it was. *)
Theorem unsafe_start_rejected (c : Ctl) (msg : TargetOrientation) :
  is_safe (solver c) (state c) = false ->
  let c' := target_orientation_callback c msg in
  lcm_ c' = lcm_ c ++
    [Publish "/debug_message"
       (MsgDebug (mkDebugMessage false "Unsafe Starting Position"))]
  /\ DUD_ENCODER_VALUES c' = DUD_ENCODER_VALUES c
  /\ state c' = state c
  /\ solver c' = solver c
  /\ motion_planner c' = motion_planner c
  /\ enable_execute c' = enable_execute c
  /\ previewing c' = previewing c
  /\ ik_enabled c' = ik_enabled c
  /\ sim_mode c' = sim_mode c
  /\ arm_control_state c' = arm_control_state c
  /\ prev_angles c' = prev_angles c
  /\ faulty_encoders c' = faulty_encoders c
  /\ encoder_error c' = encoder_error c
  /\ encoder_error_message c' = encoder_error_message c.
Proof.
  intros Hunsafe. unfold target_orientation_callback.
  rewrite Hunsafe. simpl. repeat split; reflexivity.
Qed.

(** ** Encoder units *)

Lemma for_range_length (body : nat -> list Q -> list Q) :
  (forall i v, List.length (body i v) = List.length v) ->
  forall n lo v, List.length (for_range lo n body v) = List.length v.
Proof.
  intros Hb n. induction n as [|n IH]; intros lo v.
  - reflexivity.
  - rewrite for_range_S, Hb. apply IH.
Qed.

(** A loop whose pass [i] rewrites entry [i] from its current value acts
    entry by entry. *)
Lemma for_range_pointwise (f : nat -> Q -> Q) (body : nat -> list Q -> list Q) :
  (forall i v, body i v = upd i (f i (nth i v 0)) v) ->
  forall n lo v j, (j < List.length v)%nat ->
    nth j (for_range lo n body v) 0 =
    if (lo <=? j)%nat && (j <? lo + n)%nat then f j (nth j v 0) else nth j v 0.
Proof.
  intros Hb n. induction n as [|n IH]; intros lo v j Hj.
  - rewrite for_range_0.
    destruct (lo <=? j)%nat eqn:E1; destruct (j <? lo + 0)%nat eqn:E2; simpl; auto.
    apply Nat.leb_le in E1. apply Nat.ltb_lt in E2. lia.
  - rewrite for_range_S, Hb.
    assert (Hlen : List.length (for_range lo n body v) = List.length v).
    { apply for_range_length. intros i w. rewrite Hb. apply length_upd. }
    destruct (Nat.eq_dec (lo + n) j) as [Heq|Hne].
    + subst j. rewrite nth_upd_same by lia. rewrite IH by lia.
      replace (lo <=? lo + n)%nat with true by (symmetry; apply Nat.leb_le; lia).
      replace (lo + n <? lo + n)%nat with false by (symmetry; apply Nat.ltb_ge; lia).
      replace (lo + n <? lo + S n)%nat with true by (symmetry; apply Nat.ltb_lt; lia).
      reflexivity.
    + rewrite nth_upd_other by assumption. rewrite IH by assumption.
      destruct (lo <=? j)%nat eqn:E1; simpl; auto.
      destruct (j <? lo + n)%nat eqn:E2; destruct (j <? lo + S n)%nat eqn:E3; auto.
      * apply Nat.ltb_lt in E2. apply Nat.ltb_ge in E3. lia.
      * apply Nat.ltb_ge in E2. apply Nat.ltb_lt in E3. lia.
Qed.

Lemma msg_angles_as_arm_position (v : list Q) :
  List.length v = 6%nat -> msg_angles (as_arm_position v) = v.
Proof.
  intros H.
  destruct v as [|a [|b [|c [|d [|e [|f [|g v]]]]]]]; simpl in H; try lia.
  reflexivity.
Qed.

Lemma to_encoder_units_length (st : ArmState) (v : list Q) :
  List.length (to_encoder_units st v) = List.length v.
Proof.
  unfold to_encoder_units. apply for_range_length.
  intros i w. apply length_upd.
Qed.

Lemma to_encoder_units_nth (st : ArmState) (v : list Q) (j : nat) :
  (j < 6)%nat -> (j < List.length v)%nat ->
  nth j (to_encoder_units st v) 0 =
  nth j v 0 * get_joint_encoder_multiplier st j + get_joint_encoder_offset st j.
Proof.
  intros H6 Hj. unfold to_encoder_units.
  rewrite (for_range_pointwise
             (fun i x => x * get_joint_encoder_multiplier st i
                         + get_joint_encoder_offset st i)) by auto.
  replace (j <? 0 + 6)%nat with true by (symmetry; apply Nat.ltb_lt; lia).
  reflexivity.
Qed.

Lemma from_encoder_units_nth (st : ArmState) (v : list Q) (j : nat) :
  (j < 6)%nat -> (j < List.length v)%nat ->
  nth j (from_encoder_units st v) 0 =
  (nth j v 0 - get_joint_encoder_offset st j) * get_joint_encoder_multiplier st j.
Proof.
  intros H6 Hj. unfold from_encoder_units.
  rewrite (for_range_pointwise
             (fun i x => (x - get_joint_encoder_offset st i)
                         * get_joint_encoder_multiplier st i)) by auto.
  replace (j <? 0 + 6)%nat with true by (symmetry; apply Nat.ltb_lt; lia).
  reflexivity.
Qed.

(** What comes back when an emitted setpoint is read in again: the angle
    times the square of the multiplier. *)
Lemma emit_then_intake (st : ArmState) (theta : list Q) (j : nat) :
  List.length theta = 6%nat -> (j < 6)%nat ->
  nth j (intake st (emitted_setpoint st theta)) 0 ==
  nth j theta 0 * (get_joint_encoder_multiplier st j
                   * get_joint_encoder_multiplier st j).
Proof.
  intros Hlen Hj. unfold intake, emitted_setpoint.
  rewrite msg_angles_as_arm_position
    by (rewrite to_encoder_units_length; assumption).
  rewrite from_encoder_units_nth
    by (try rewrite to_encoder_units_length; lia).
  rewrite to_encoder_units_nth by lia.
  ring.
Qed.

(** Lines 313-314 repeat the two steps of lines 49-50 in the opposite
    order, and multiply where undoing line 50 takes a division.  The
    emitted setpoint is therefore read back as the logical angle only for
    a joint whose encoder multiplier squares to one (a multiplier of 1 or
    -1); [emit_then_intake] gives what comes back otherwise. *)
Lemma setpoint_round_trip (st : ArmState) (theta : list Q) (j : nat) :
  List.length theta = 6%nat -> (j < 6)%nat ->
  get_joint_encoder_multiplier st j * get_joint_encoder_multiplier st j == 1 ->
  nth j (intake st (emitted_setpoint st theta)) 0 == nth j theta 0.
Proof.
  intros Hlen Hj Hm. rewrite emit_then_intake by assumption.
  rewrite Hm. ring.
Qed.

(** ** What the encoder checks leave alone *)

Lemma for_range_inv {S : Type} (P : S -> Prop) (body : nat -> S -> S) :
  (forall i s, P s -> P (body i s)) ->
  forall n lo s, P s -> P (for_range lo n body s).
Proof.
  intros Hb n. induction n as [|n IH]; intros lo s Hs.
  - exact Hs.
  - rewrite for_range_S. apply Hb, IH, Hs.
Qed.

Lemma guard_frame_refl (c : Ctl) : guard_frame c c.
Proof. unfold guard_frame. repeat split; reflexivity. Qed.

Lemma guard_frame_trans (c1 c2 c3 : Ctl) :
  guard_frame c1 c2 -> guard_frame c2 c3 -> guard_frame c1 c3.
Proof.
  unfold guard_frame. intros H12 H23.
  repeat match goal with H : _ /\ _ |- _ => destruct H end.
  repeat split; congruence.
Qed.

Lemma guard_frame_mark_faulty (c : Ctl) (joint : nat) :
  guard_frame c (mark_faulty c joint).
Proof. unfold guard_frame. repeat split; reflexivity. Qed.

Lemma guard_frame_set_faulty (c : Ctl) (f : list bool) :
  guard_frame c (set_faulty_encoders c f).
Proof. unfold guard_frame. repeat split; reflexivity. Qed.

Lemma guard_frame_set_prev (c : Ctl) (p : list (list Q)) :
  guard_frame c (set_prev_angles c p).
Proof. unfold guard_frame. repeat split; reflexivity. Qed.

Lemma check_dud_encoder_length (c : Ctl) (angles : list Q) :
  List.length (check_dud_encoder c angles) = List.length angles.
Proof.
  unfold check_dud_encoder. apply for_range_length. intros i v.
  apply for_range_length. intros j w.
  destruct (Qlt_b _ _); [apply length_upd | reflexivity].
Qed.

Lemma from_encoder_units_length (st : ArmState) (v : list Q) :
  List.length (from_encoder_units st v) = List.length v.
Proof.
  unfold from_encoder_units. apply for_range_length.
  intros i w. apply length_upd.
Qed.

(** [check_joint_limits] writes the error flag and its text, nothing else
    of the controller. *)
Lemma check_joint_limits_frame (c : Ctl) (angles : list Q) :
  guard_frame c (fst (check_joint_limits c angles))
  /\ prev_angles (fst (check_joint_limits c angles)) = prev_angles c
  /\ faulty_encoders (fst (check_joint_limits c angles)) = faulty_encoders c
  /\ List.length (snd (check_joint_limits c angles)) = List.length angles.
Proof.
  unfold check_joint_limits.
  apply (for_range_inv (fun s : Ctl * list Q =>
           guard_frame c (fst s) /\ prev_angles (fst s) = prev_angles c
           /\ faulty_encoders (fst s) = faulty_encoders c
           /\ List.length (snd s) = List.length angles)).
  - intros i [c0 a0] (Hf & Hp & Hfe & Hl). simpl in *.
    unfold check_joint_limits_at.
    unfold guard_frame in *.
    repeat match goal with H : _ /\ _ |- _ => destruct H end.
    repeat match goal with |- context [if ?b then _ else _] => destruct b end;
      simpl; rewrite ?length_upd; repeat split; auto.
  - simpl. repeat split; auto.
Qed.

Lemma checked_readings_frame (c : Ctl) (msg : ArmPosition) :
  guard_frame c (fst (checked_readings c msg))
  /\ prev_angles (fst (checked_readings c msg)) = prev_angles c
  /\ faulty_encoders (fst (checked_readings c msg)) = faulty_encoders c
  /\ List.length (snd (checked_readings c msg)) = 6%nat.
Proof.
  unfold checked_readings.
  match goal with |- context [check_joint_limits ?c0 ?a0] =>
    destruct (check_joint_limits_frame c0 a0) as (Hf & Hp & Hfe & Hl) end.
  split; [|split; [|split]].
  - eapply guard_frame_trans; [|exact Hf].
    unfold guard_frame. repeat split; reflexivity.
  - rewrite Hp. reflexivity.
  - rewrite Hfe. reflexivity.
  - rewrite Hl, check_dud_encoder_length.
    destruct (negb (sim_mode c)); [rewrite from_encoder_units_length|]; reflexivity.
Qed.

Lemma scan_partial_frame (a : Q) (w : list Q) (joint : nat) :
  forall (i : nat) (c : Ctl),
    guard_frame c (scan_partial a w i joint c)
    /\ prev_angles (scan_partial a w i joint c) = prev_angles c.
Proof.
  induction w as [|p w IH]; intros i c; simpl.
  - split; [apply guard_frame_refl | reflexivity].
  - destruct (Qlt_b _ _).
    + split; [apply guard_frame_mark_faulty | reflexivity].
    + destruct w as [|q w'].
      * simpl. split; [apply guard_frame_set_faulty | reflexivity].
      * destruct (IH (S i) c) as [Hf Hp]. split; assumption.
Qed.

Lemma scan_full_frame (angles : list Q) (joint : nat) (c : Ctl) :
  guard_frame c (scan_full angles joint c)
  /\ prev_angles (scan_full angles joint c) = prev_angles c.
Proof.
  unfold scan_full. destruct (Nat.ltb _ _).
  - split; [apply guard_frame_mark_faulty | reflexivity].
  - split; [apply guard_frame_set_faulty | reflexivity].
Qed.

Lemma jump_check_frame (c : Ctl) (angles : list Q) :
  guard_frame c (jump_check c angles)
  /\ prev_angles (jump_check c angles) = prev_angles c.
Proof.
  unfold jump_check. destruct (Nat.ltb _ _).
  - apply (for_range_inv (fun c0 : Ctl =>
             guard_frame c c0 /\ prev_angles c0 = prev_angles c)).
    + intros i c0 [Hf Hp].
      destruct (scan_partial_frame (nth i angles 0)
                  (nth i (prev_angles c0) []) i 0 c0) as [Hf' Hp'].
      split; [eapply guard_frame_trans; eassumption | congruence].
    + split; [apply guard_frame_refl | reflexivity].
  - apply (for_range_inv (fun c0 : Ctl =>
             guard_frame c c0 /\ prev_angles c0 = prev_angles c)).
    + intros i c0 [Hf Hp].
      destruct (scan_full_frame angles i c0) as [Hf' Hp'].
      split; [eapply guard_frame_trans; eassumption | congruence].
    + split; [apply guard_frame_refl | reflexivity].
Qed.

Lemma store_readings_frame (c : Ctl) (angles : list Q) :
  guard_frame c (fst (store_readings c angles))
  /\ faulty_encoders (fst (store_readings c angles)) = faulty_encoders c
  /\ encoder_error (fst (store_readings c angles)) = encoder_error c
  /\ encoder_error_message (fst (store_readings c angles))
     = encoder_error_message c.
Proof.
  unfold store_readings.
  apply (for_range_inv (fun s : Ctl * list Q =>
           guard_frame c (fst s)
           /\ faulty_encoders (fst s) = faulty_encoders c
           /\ encoder_error (fst s) = encoder_error c
           /\ encoder_error_message (fst s) = encoder_error_message c)).
  - intros i [c0 a0] (Hf & Hfe & He & Hm). simpl in *.
    unfold store_at.
    unfold guard_frame in *.
    repeat match goal with H : _ /\ _ |- _ => destruct H end.
    match goal with |- context [if ?b then _ else _] => destruct b end; simpl;
      repeat split; auto.
  - simpl. repeat split; auto.
Qed.

Lemma sanitize_frame (c : Ctl) (msg : ArmPosition) :
  guard_frame c (fst (sanitize c msg)).
Proof.
  unfold sanitize.
  destruct (checked_readings c msg) as [c3 a2] eqn:E.
  pose proof (checked_readings_frame c msg) as (Hf & _). rewrite E in Hf.
  simpl in Hf.
  destruct (jump_check_frame c3 a2) as [Hj _].
  destruct (store_readings_frame (jump_check c3 a2) a2) as [Hs _].
  eapply guard_frame_trans; [exact Hf|].
  eapply guard_frame_trans; eassumption.
Qed.

(** ** The jump check against full windows *)

Lemma num_fishy_vals_counts (a : Q) (w : list Q) :
  num_fishy_vals a w =
  List.length (filter (violated a w) (seq 0 MAX_NUM_PREV_ANGLES)).
Proof.
  unfold num_fishy_vals. generalize MAX_NUM_PREV_ANGLES as n.
  induction n as [|n IH].
  - reflexivity.
  - rewrite for_range_S, IH, seq_S, filter_app, length_app. simpl.
    unfold violated. destruct (Qlt_b _ _); simpl; lia.
Qed.

(** The verdict of the full-window branch on joint [j]. *)
Lemma scan_full_loop (angles : list Q) (n : nat) :
  forall (lo : nat) (c : Ctl),
    let flag j := Nat.ltb MAX_FISHY_VALS
                    (num_fishy_vals (nth j angles 0) (nth j (prev_angles c) [])) in
    let c' := for_range lo n (scan_full angles) c in
    (lo + n <= List.length (faulty_encoders c))%nat ->
    List.length (faulty_encoders c') = List.length (faulty_encoders c)
    /\ prev_angles c' = prev_angles c
    /\ (forall j, (lo <= j < lo + n)%nat ->
          nth j (faulty_encoders c') false = flag j)
    /\ (forall j, ~ (lo <= j < lo + n)%nat ->
          nth j (faulty_encoders c') false = nth j (faulty_encoders c) false)
    /\ encoder_error c' = encoder_error c || existsb flag (seq lo n).
Proof.
  induction n as [|n IH]; intros lo c flag c' Hlen.
  - subst c'. rewrite for_range_0. simpl. rewrite orb_false_r.
    repeat split; auto. intros j Hj. lia.
  - subst c'. rewrite for_range_S.
    destruct (IH lo c) as (Hl & Hp & Hin & Hout & He); [lia|].
    set (cn := for_range lo n (scan_full angles) c) in *.
    rewrite seq_S, existsb_app. simpl existsb. rewrite orb_false_r.
    unfold scan_full. rewrite Hp. fold (flag (lo + n)%nat).
    destruct (flag (lo + n)%nat) eqn:E; simpl.
    + rewrite length_upd. repeat split; auto.
      * intros j Hj. destruct (Nat.eq_dec (lo + n) j) as [Heq|Hne].
        -- subst j. rewrite nth_upd_same by lia. auto.
        -- rewrite nth_upd_other by assumption. apply Hin. lia.
      * intros j Hj. rewrite nth_upd_other by lia. apply Hout. lia.
      * rewrite orb_true_r, orb_true_r. reflexivity.
    + rewrite length_upd. repeat split; auto.
      * intros j Hj. destruct (Nat.eq_dec (lo + n) j) as [Heq|Hne].
        -- subst j. rewrite nth_upd_same by lia. auto.
        -- rewrite nth_upd_other by assumption. apply Hin. lia.
      * intros j Hj. rewrite nth_upd_other by lia. apply Hout. lia.
      * rewrite He, orb_false_r. reflexivity.
Qed.

(** What [arm_position_callback] leaves in the members of the guard is
    what line 120 left there. *)
Lemma arm_position_callback_guard (c : Ctl) (msg : ArmPosition) :
  prev_angles (arm_position_callback c msg) = prev_angles (fst (sanitize c msg))
  /\ faulty_encoders (arm_position_callback c msg)
     = faulty_encoders (fst (sanitize c msg))
  /\ encoder_error (arm_position_callback c msg)
     = encoder_error (fst (sanitize c msg)).
Proof.
  unfold arm_position_callback. destruct (sanitize c msg) as [c5 a3]. simpl.
  destruct (negb (previewing c5)); [|auto].
  simpl. destruct (FK _ _) as [sv st]. simpl. auto.
Qed.

Lemma sanitize_guard (c : Ctl) (msg : ArmPosition) :
  let c3 := fst (checked_readings c msg) in
  let alpha := snd (checked_readings c msg) in
  faulty_encoders (fst (sanitize c msg)) = faulty_encoders (jump_check c3 alpha)
  /\ encoder_error (fst (sanitize c msg)) = encoder_error (jump_check c3 alpha).
Proof.
  unfold sanitize. destruct (checked_readings c msg) as [c3 a2]. simpl.
  destruct (store_readings_frame (jump_check c3 a2) a2) as (_ & Hf & He & _).
  auto.
Qed.

(** The outcome of a message that meets full windows: joint [j] is marked
    exactly when more than [MAX_FISHY_VALS] of its comparisons fail, and
    the error flag is what the limit check left or-ed with those marks. *)
Lemma full_window_outcome (c : Ctl) (msg : ArmPosition) :
  (MAX_NUM_PREV_ANGLES <= List.length (nth 0 (prev_angles c) []))%nat ->
  List.length (faulty_encoders c) = 6%nat ->
  let alpha := snd (checked_readings c msg) in
  let flag j := Nat.ltb MAX_FISHY_VALS
                  (num_fishy_vals (nth j alpha 0) (nth j (prev_angles c) [])) in
  let c' := arm_position_callback c msg in
  (forall j, (j < 6)%nat -> nth j (faulty_encoders c') false = flag j)
  /\ encoder_error c' =
     encoder_error (fst (checked_readings c msg)) || existsb flag (seq 0 6).
Proof.
  intros Hfull Hlen alpha flag c'.
  destruct (arm_position_callback_guard c msg) as (_ & Hf & He).
  destruct (sanitize_guard c msg) as (Hf' & He').
  destruct (checked_readings_frame c msg) as (_ & Hp3 & Hf3 & _).
  subst c'. rewrite Hf, He, Hf', He'. fold alpha.
  set (c3 := fst (checked_readings c msg)) in *.
  unfold jump_check. rewrite Hp3.
  replace (Nat.ltb (List.length (nth 0 (prev_angles c) [])) MAX_NUM_PREV_ANGLES)
    with false by (symmetry; apply Nat.ltb_ge; exact Hfull).
  destruct (scan_full_loop alpha 6 0 c3) as (_ & _ & Hin & _ & Herr).
  { rewrite Hf3, Hlen. lia. }
  rewrite Hp3 in Hin, Herr. split.
  - intros j Hj. apply Hin. lia.
  - exact Herr.
Qed.

(** A reading that fails every comparison is marked as soon as
    [MAX_FISHY_VALS] is below the size of the window, whatever the
    constants are otherwise. *)
Lemma lone_far_reading_is_marked (c : Ctl) (msg : ArmPosition) (joint : nat) :
  (MAX_NUM_PREV_ANGLES <= List.length (nth 0 (prev_angles c) []))%nat ->
  List.length (faulty_encoders c) = 6%nat ->
  (joint < 6)%nat ->
  (MAX_FISHY_VALS < MAX_NUM_PREV_ANGLES)%nat ->
  (forall k, (k < MAX_NUM_PREV_ANGLES)%nat ->
     violated (nth joint (snd (checked_readings c msg)) 0)
              (nth joint (prev_angles c) []) k = true) ->
  nth joint (faulty_encoders (arm_position_callback c msg)) false = true
  /\ encoder_error (arm_position_callback c msg) = true.
Proof.
  intros Hfull Hlen Hj Hlt Hall.
  destruct (full_window_outcome c msg Hfull Hlen) as [Hmark Herr].
  assert (Hflag : Nat.ltb MAX_FISHY_VALS
                    (num_fishy_vals (nth joint (snd (checked_readings c msg)) 0)
                                    (nth joint (prev_angles c) [])) = true).
  { apply Nat.ltb_lt. rewrite num_fishy_vals_counts.
    rewrite forallb_filter_id; [rewrite length_seq; exact Hlt|].
    apply forallb_forall. intros k Hk. apply in_seq in Hk. apply Hall. lia. }
  split.
  - rewrite (Hmark joint Hj). exact Hflag.
  - rewrite Herr. apply orb_true_iff. right.
    apply existsb_exists. exists joint. split; [apply in_seq; lia | exact Hflag].
Qed.

(** C4 (as the code has it): against full windows, joint [joint] is
    marked faulty by a message exactly when strictly more than
    [MAX_FISHY_VALS] of the [MAX_NUM_PREV_ANGLES] comparisons
    [|alpha - w[k]| > ENCODER_ERROR_THRESHOLD * (k + 1)] fail, and
    [encoder_error] is raised by that message exactly when the limit
    check raised it or some joint is so marked.  A reading that fails at
    most [MAX_FISHY_VALS] comparisons therefore marks nothing; one that
    fails more raises the error on that very message. *)
Theorem fault_needs_more_than_allowed
    (c : Ctl) (msg : ArmPosition) (joint : nat) :
  (MAX_NUM_PREV_ANGLES <= List.length (nth 0 (prev_angles c) []))%nat ->
  List.length (faulty_encoders c) = 6%nat ->
  (joint < 6)%nat ->
  let alpha := snd (checked_readings c msg) in
  let fishy j :=
    List.length (filter (violated (nth j alpha 0) (nth j (prev_angles c) []))
                        (seq 0 MAX_NUM_PREV_ANGLES)) in
  let c' := arm_position_callback c msg in
  (nth joint (faulty_encoders c') false = true
     <-> (MAX_FISHY_VALS < fishy joint)%nat)
  /\ (encoder_error c' = true
      <-> encoder_error (fst (checked_readings c msg)) = true
          \/ exists j, (j < 6)%nat /\ (MAX_FISHY_VALS < fishy j)%nat).
Proof.
  intros Hfull Hlen Hj alpha fishy c'.
  destruct (full_window_outcome c msg Hfull Hlen) as [Hmark Herr].
  fold alpha in Hmark, Herr. fold c' in Hmark, Herr.
  assert (Hflag : forall j,
            Nat.ltb MAX_FISHY_VALS
              (num_fishy_vals (nth j alpha 0) (nth j (prev_angles c) [])) = true
            <-> (MAX_FISHY_VALS < fishy j)%nat).
  { intros j. rewrite num_fishy_vals_counts. apply Nat.ltb_lt. }
  split.
  - rewrite (Hmark joint Hj). apply Hflag.
  - rewrite Herr, orb_true_iff, existsb_exists. split.
    + intros [H | (j & Hin & H)]; [left; exact H | right].
      exists j. apply in_seq in Hin. split; [lia | apply Hflag, H].
    + intros [H | (j & Hlt & H)]; [left; exact H | right].
      exists j. split; [apply in_seq; lia | apply Hflag, H].
Qed.

(** ** The jump check while the windows fill *)

Lemma existsb_seq_shift (f : nat -> bool) (n : nat) :
  forall a, existsb f (seq (S a) n) = existsb (fun j => f (S j)) (seq a n).
Proof.
  induction n as [|n IH]; intros a; simpl; [reflexivity|].
  rewrite IH. reflexivity.
Qed.

Lemma existsb_ext {A : Type} (f g : A -> bool) (l : list A) :
  (forall x, f x = g x) -> existsb f l = existsb g l.
Proof.
  intros H. induction l as [|x l IH]; simpl; [reflexivity|].
  rewrite H, IH. reflexivity.
Qed.

Lemma jumps_from_indexed (w : list Q) :
  forall (i : nat) (a : Q),
    jumps_from i a w =
    existsb (fun k => Qlt_b (threshold_at (i + k)) (Qabs (a - nth k w 0)))
            (seq 0 (List.length w)).
Proof.
  induction w as [|p w IH]; intros i a; simpl; [reflexivity|].
  rewrite Nat.add_0_r, existsb_seq_shift, IH. f_equal.
  apply existsb_ext. intros k. rewrite Nat.add_succ_r. reflexivity.
Qed.

Lemma jumps_from_0 (a : Q) (w : list Q) : jumps_from 0 a w = jumps a w.
Proof. rewrite jumps_from_indexed. reflexivity. Qed.

Lemma jumps_true_iff (a : Q) (w : list Q) :
  jumps a w = true <->
  exists k, (k < List.length w)%nat /\ violated a w k = true.
Proof.
  unfold jumps. rewrite existsb_exists. split.
  - intros (k & Hin & H). apply in_seq in Hin. exists k. split; [lia | exact H].
  - intros (k & Hk & H). exists k. split; [apply in_seq; lia | exact H].
Qed.

(** The inner loop leaves at the first failed comparison with the joint
    marked; it clears the mark only after the last comparison has passed;
    on an empty window it does nothing. *)
Lemma scan_partial_spec (a : Q) (joint : nat) (w : list Q) :
  forall (i : nat) (c : Ctl),
    (joint < List.length (faulty_encoders c))%nat ->
    let c' := scan_partial a w i joint c in
    nth joint (faulty_encoders c') false =
      (if jumps_from i a w then true
       else match w with
            | [] => nth joint (faulty_encoders c) false
            | _ :: _ => false
            end)
    /\ (forall j, j <> joint ->
          nth j (faulty_encoders c') false = nth j (faulty_encoders c) false)
    /\ encoder_error c' = encoder_error c || jumps_from i a w
    /\ List.length (faulty_encoders c') = List.length (faulty_encoders c).
Proof.
  induction w as [|p w IH]; intros i c Hj c'; subst c'.
  - simpl. rewrite orb_false_r. auto.
  - cbn [scan_partial jumps_from].
    destruct (Qlt_b (threshold_at i) (Qabs (a - p))) eqn:E; cbn [orb].
    + simpl. rewrite orb_true_r, length_upd, nth_upd_same by exact Hj.
      repeat split; auto. intros j Hne. apply nth_upd_other. auto.
    + destruct w as [|q w'].
      * simpl. rewrite orb_false_r, length_upd, nth_upd_same by exact Hj.
        repeat split; auto. intros j Hne. apply nth_upd_other. auto.
      * destruct (IH (S i) c Hj) as (H1 & H2 & H3 & H4).
        rewrite H1, H3, H4. repeat split; auto.
Qed.

Lemma scan_partial_loop (angles : list Q) (n : nat) :
  forall (lo : nat) (c : Ctl),
    let verdict j :=
      if jumps (nth j angles 0) (nth j (prev_angles c) []) then true
      else match nth j (prev_angles c) [] with
           | [] => nth j (faulty_encoders c) false
           | _ :: _ => false
           end in
    let c' := for_range lo n (fun joint c0 =>
                scan_partial (nth joint angles 0)
                             (nth joint (prev_angles c0) []) 0 joint c0) c in
    (lo + n <= List.length (faulty_encoders c))%nat ->
    List.length (faulty_encoders c') = List.length (faulty_encoders c)
    /\ prev_angles c' = prev_angles c
    /\ (forall j, (lo <= j < lo + n)%nat ->
          nth j (faulty_encoders c') false = verdict j)
    /\ (forall j, ~ (lo <= j < lo + n)%nat ->
          nth j (faulty_encoders c') false = nth j (faulty_encoders c) false)
    /\ encoder_error c' =
       encoder_error c
       || existsb (fun j => jumps (nth j angles 0) (nth j (prev_angles c) []))
                  (seq lo n).
Proof.
  induction n as [|n IH]; intros lo c verdict c' Hlen.
  - subst c'. rewrite for_range_0. simpl. rewrite orb_false_r.
    repeat split; auto. intros j Hj. lia.
  - subst c'. rewrite for_range_S.
    destruct (IH lo c) as (Hl & Hp & Hin & Hout & He); [lia|].
    set (cn := for_range lo n _ c) in *.
    rewrite seq_S, existsb_app. simpl existsb. rewrite orb_false_r.
    destruct (scan_partial_spec (nth (lo + n) angles 0) (lo + n)
                (nth (lo + n) (prev_angles cn) []) 0 cn)
      as (H1 & H2 & H3 & H4); [lia|].
    destruct (scan_partial_frame (nth (lo + n) angles 0)
                (nth (lo + n) (prev_angles cn) []) (lo + n) 0 cn) as [_ Hp'].
    rewrite jumps_from_0 in H1, H3. rewrite Hp in H1, H2, H3, H4, Hp'.
    rewrite Hp.
    split; [congruence|]. split; [congruence|].
    split; [|split].
    + intros j Hj. destruct (Nat.eq_dec j (lo + n)) as [->|Hne].
      * rewrite H1. unfold verdict. rewrite (Hout (lo + n)%nat) by lia.
        reflexivity.
      * rewrite H2 by exact Hne. apply Hin. lia.
    + intros j Hj. rewrite H2 by lia. apply Hout. lia.
    + rewrite H3, He, orb_assoc. reflexivity.
Qed.

(** The outcome of a message that meets windows still filling: a joint
    with a non-empty window is marked exactly when one of its comparisons
    fails, a joint with an empty window keeps its mark, and the error
    flag is what the limit check left or-ed with the failed comparisons. *)
Lemma partial_window_outcome (c : Ctl) (msg : ArmPosition) :
  (List.length (nth 0 (prev_angles c) []) < MAX_NUM_PREV_ANGLES)%nat ->
  List.length (faulty_encoders c) = 6%nat ->
  let alpha := snd (checked_readings c msg) in
  let verdict j :=
    if jumps (nth j alpha 0) (nth j (prev_angles c) []) then true
    else match nth j (prev_angles c) [] with
         | [] => nth j (faulty_encoders c) false
         | _ :: _ => false
         end in
  let c' := arm_position_callback c msg in
  (forall j, (j < 6)%nat -> nth j (faulty_encoders c') false = verdict j)
  /\ encoder_error c' =
     encoder_error (fst (checked_readings c msg))
     || existsb (fun j => jumps (nth j alpha 0) (nth j (prev_angles c) []))
                (seq 0 6).
Proof.
  intros Hpart Hlen alpha verdict c'.
  destruct (arm_position_callback_guard c msg) as (_ & Hf & He).
  destruct (sanitize_guard c msg) as (Hf' & He').
  destruct (checked_readings_frame c msg) as (_ & Hp3 & Hf3 & _).
  subst c'. rewrite Hf, He, Hf', He'. fold alpha.
  set (c3 := fst (checked_readings c msg)) in *.
  unfold jump_check. rewrite Hp3.
  replace (Nat.ltb (List.length (nth 0 (prev_angles c) [])) MAX_NUM_PREV_ANGLES)
    with true by (symmetry; apply Nat.ltb_lt; exact Hpart).
  destruct (scan_partial_loop alpha 6 0 c3) as (_ & _ & Hin & _ & Herr).
  { rewrite Hf3, Hlen. lia. }
  rewrite Hp3, Hf3 in Hin. rewrite Hp3 in Herr. split.
  - intros j Hj. apply Hin. lia.
  - exact Herr.
Qed.

(** ** The error flag after a message *)

(** C6 (as the code has it): [encoder_error] is decided afresh by every
    encoder message.  Whatever the flag [b] was before the message, it is
    set after it exactly when that message fails the limit check or the
    jump check.  The jump check fails, while the windows hold fewer than
    [MAX_NUM_PREV_ANGLES] readings, as soon as one comparison
    [|alpha - w[k]| > ENCODER_ERROR_THRESHOLD * (k + 1)] of some joint
    fails, and against full windows when some joint fails more than
    [MAX_FISHY_VALS] of them.  A message that passes both checks
    therefore clears a flag raised earlier, with no fresh window of
    healthy readings. *)
Theorem encoder_error_decided_by_each_message
    (c : Ctl) (msg : ArmPosition) (b : bool) :
  List.length (faulty_encoders c) = 6%nat ->
  let alpha := snd (checked_readings c msg) in
  let window j := nth j (prev_angles c) [] in
  let fishy j :=
    List.length (filter (violated (nth j alpha 0) (window j))
                        (seq 0 MAX_NUM_PREV_ANGLES)) in
  encoder_error (arm_position_callback (set_encoder_error c b) msg) = true
  <-> encoder_error (fst (checked_readings c msg)) = true
      \/ ((List.length (window 0%nat) < MAX_NUM_PREV_ANGLES)%nat
          /\ exists j k, (j < 6)%nat /\ (k < List.length (window j))%nat
               /\ violated (nth j alpha 0) (window j) k = true)
      \/ ((MAX_NUM_PREV_ANGLES <= List.length (window 0%nat))%nat
          /\ exists j, (j < 6)%nat /\ (MAX_FISHY_VALS < fishy j)%nat).
Proof.
  intros Hlen alpha window fishy.
  change (arm_position_callback (set_encoder_error c b) msg)
    with (arm_position_callback c msg).
  destruct (Nat.lt_ge_cases (List.length (window 0%nat)) MAX_NUM_PREV_ANGLES)
    as [Hpart | Hfull].
  - destruct (partial_window_outcome c msg Hpart Hlen) as [_ Herr].
    fold alpha in Herr. rewrite Herr, orb_true_iff, existsb_exists. split.
    + intros [H | (j & Hin & H)]; [left; exact H | right; left].
      split; [exact Hpart|].
      apply in_seq in Hin. apply jumps_true_iff in H.
      destruct H as (k & Hk & H). exists j, k. repeat split; auto. lia.
    + intros [H | [(_ & j & k & Hj & Hk & H) | (Hge & _)]].
      * left; exact H.
      * right. exists j. split; [apply in_seq; lia|].
        apply jumps_true_iff. exists k. auto.
      * unfold window in *. lia.
  - destruct (full_window_outcome c msg Hfull Hlen) as [_ Herr].
    fold alpha in Herr. rewrite Herr, orb_true_iff, existsb_exists.
    assert (Hflag : forall j,
              Nat.ltb MAX_FISHY_VALS
                (num_fishy_vals (nth j alpha 0) (nth j (prev_angles c) [])) = true
              <-> (MAX_FISHY_VALS < fishy j)%nat).
    { intros j. rewrite num_fishy_vals_counts. apply Nat.ltb_lt. }
    split.
    + intros [H | (j & Hin & H)]; [left; exact H | right; right].
      split; [exact Hfull|]. exists j. apply in_seq in Hin.
      split; [lia | apply Hflag, H].
    + intros [H | [(Hlt & _) | (_ & j & Hj & H)]].
      * left; exact H.
      * unfold window in *. lia.
      * right. exists j. split; [apply in_seq; lia | apply Hflag, H].
Qed.

(** The flag a message leaves does not depend on the flag it found. *)
Lemma encoder_error_forgets_the_past (c : Ctl) (msg : ArmPosition) (b : bool) :
  encoder_error (arm_position_callback (set_encoder_error c b) msg)
  = encoder_error (arm_position_callback c msg).
Proof. reflexivity. Qed.

(** ** Storing and substituting *)

Lemma store_loop (n : nat) :
  forall (lo : nat) (c : Ctl) (angles : list Q),
    let r := for_range lo n store_at (c, angles) in
    faulty_encoders (fst r) = faulty_encoders c
    /\ state (fst r) = state c
    /\ List.length (prev_angles (fst r)) = List.length (prev_angles c)
    /\ List.length (snd r) = List.length angles
    /\ (forall j, (lo <= j < lo + n)%nat ->
          (j < List.length (prev_angles c))%nat ->
          nth j (prev_angles (fst r)) [] =
          push_reading (nth j angles 0) (nth j (prev_angles c) []))
    /\ (forall j, ~ (lo <= j < lo + n)%nat ->
          nth j (prev_angles (fst r)) [] = nth j (prev_angles c) [])
    /\ (forall j, (lo <= j < lo + n)%nat -> (j < List.length angles)%nat ->
          nth j (snd r) 0 =
          if nth j (faulty_encoders c) false
          then get_joint_angle (state c) j else nth j angles 0)
    /\ (forall j, ~ (lo <= j < lo + n)%nat -> nth j (snd r) 0 = nth j angles 0).
Proof.
  induction n as [|n IH]; intros lo c angles r.
  - subst r. rewrite for_range_0. simpl.
    repeat split; auto; intros j Hj; lia.
  - subst r. rewrite for_range_S.
    destruct (IH lo c angles) as (Hf & Hs & Hlp & Hla & Hpin & Hpout & Hain & Haout).
    destruct (for_range lo n store_at (c, angles)) as [cn an].
    simpl in Hf, Hs, Hlp, Hla, Hpin, Hpout, Hain, Haout.
    unfold store_at. cbn [faulty_encoders set_prev_angles state].
    assert (Hw : nth (lo + n) (prev_angles cn) [] = nth (lo + n) (prev_angles c) [])
      by (apply Hpout; lia).
    assert (Ha : nth (lo + n) an 0 = nth (lo + n) angles 0)
      by (apply Haout; lia).
    rewrite Hw, Ha, Hf, Hs.
    assert (Hprev :
      (forall j, (lo <= j < lo + S n)%nat ->
         (j < List.length (prev_angles c))%nat ->
         nth j (upd (lo + n)
                  (push_reading (nth (lo + n) angles 0)
                     (nth (lo + n) (prev_angles c) []))
                  (prev_angles cn)) [] =
         push_reading (nth j angles 0) (nth j (prev_angles c) []))
      /\ (forall j, ~ (lo <= j < lo + S n)%nat ->
            nth j (upd (lo + n)
                     (push_reading (nth (lo + n) angles 0)
                        (nth (lo + n) (prev_angles c) []))
                     (prev_angles cn)) [] =
            nth j (prev_angles c) [])).
    { split; intros j Hj.
      - intros Hjl. destruct (Nat.eq_dec (lo + n) j) as [Heq|Hne].
        + subst j. rewrite nth_upd_same by lia. reflexivity.
        + rewrite nth_upd_other by assumption. apply Hpin; [lia | assumption].
      - rewrite nth_upd_other by lia. apply Hpout. lia. }
    destruct Hprev as [Hp1 Hp2].
    destruct (nth (lo + n) (faulty_encoders c) false) eqn:Efl; simpl;
      rewrite ?length_upd; repeat split; auto.
    + intros j Hj Hjl. destruct (Nat.eq_dec (lo + n) j) as [Heq|Hne].
      * subst j. rewrite nth_upd_same by lia. rewrite Efl. reflexivity.
      * rewrite nth_upd_other by assumption. apply Hain; [lia | assumption].
    + intros j Hj. rewrite nth_upd_other by lia. apply Haout. lia.
    + intros j Hj Hjl. destruct (Nat.eq_dec (lo + n) j) as [Heq|Hne].
      * subst j. rewrite Efl. exact Ha.
      * apply Hain; [lia | assumption].
    + intros j Hj. apply Haout. lia.
Qed.

(** The window of a joint after a message. *)
Lemma callback_window (c : Ctl) (msg : ArmPosition) (joint : nat) :
  List.length (prev_angles c) = 6%nat ->
  (joint < 6)%nat ->
  nth joint (prev_angles (arm_position_callback c msg)) [] =
  push_reading (nth joint (snd (checked_readings c msg)) 0)
               (nth joint (prev_angles c) []).
Proof.
  intros Hlen Hj.
  destruct (arm_position_callback_guard c msg) as (Hp & _ & _). rewrite Hp.
  destruct (checked_readings_frame c msg) as (_ & Hp3 & _ & _).
  unfold sanitize. destruct (checked_readings c msg) as [c3 a2]. simpl in *.
  destruct (jump_check_frame c3 a2) as [_ Hp4].
  destruct (store_loop 6 0 (jump_check c3 a2) a2)
    as (_ & _ & _ & _ & Hpin & _).
  fold (store_readings (jump_check c3 a2) a2) in Hpin.
  rewrite Hpin by (rewrite ?Hp4, ?Hp3; lia).
  rewrite Hp4, Hp3. reflexivity.
Qed.

Lemma push_reading_length (a b : Q) (w w' : list Q) :
  List.length w = List.length w' ->
  List.length (push_reading a w) = List.length (push_reading b w').
Proof.
  intros H. unfold push_reading. simpl. rewrite <- H.
  destruct (Nat.leb _ _); [|congruence].
  rewrite !removelast_firstn_len, !length_firstn, H. reflexivity.
Qed.

Lemma scan_partial_faulty_length (a : Q) (w : list Q) (joint : nat) :
  forall (i : nat) (c : Ctl),
    List.length (faulty_encoders (scan_partial a w i joint c))
    = List.length (faulty_encoders c).
Proof.
  induction w as [|p w IH]; intros i c; simpl.
  - reflexivity.
  - destruct (Qlt_b _ _).
    + simpl. apply length_upd.
    + destruct w as [|q w'].
      * simpl. apply length_upd.
      * apply IH.
Qed.

Lemma jump_check_faulty_length (c : Ctl) (angles : list Q) :
  List.length (faulty_encoders (jump_check c angles))
  = List.length (faulty_encoders c).
Proof.
  unfold jump_check. destruct (Nat.ltb _ _).
  - apply (for_range_inv (fun c0 : Ctl =>
             List.length (faulty_encoders c0) = List.length (faulty_encoders c))).
    + intros i c0 H. rewrite scan_partial_faulty_length. exact H.
    + reflexivity.
  - apply (for_range_inv (fun c0 : Ctl =>
             List.length (faulty_encoders c0) = List.length (faulty_encoders c))).
    + intros i c0 H. unfold scan_full.
      destruct (Nat.ltb _ _); simpl; rewrite length_upd; exact H.
    + reflexivity.
Qed.

(** An encoder message keeps the windows and the flags in shape. *)
Lemma arm_position_callback_well_formed (c : Ctl) (msg : ArmPosition) :
  well_formed c -> well_formed (arm_position_callback c msg).
Proof.
  intros (Hp & Hf & Hal). unfold well_formed.
  split; [|split].
  - destruct (arm_position_callback_guard c msg) as (H & _ & _). rewrite H.
    destruct (checked_readings_frame c msg) as (_ & Hp3 & _ & _).
    unfold sanitize. destruct (checked_readings c msg) as [c3 a2]. simpl in *.
    destruct (jump_check_frame c3 a2) as [_ Hp4].
    destruct (store_loop 6 0 (jump_check c3 a2) a2) as (_ & _ & Hl & _).
    fold (store_readings (jump_check c3 a2) a2) in Hl. congruence.
  - destruct (arm_position_callback_guard c msg) as (_ & H & _). rewrite H.
    destruct (sanitize_guard c msg) as (H' & _). rewrite H'.
    rewrite jump_check_faulty_length.
    destruct (checked_readings_frame c msg) as (_ & _ & Hf3 & _). congruence.
  - intros j Hj. rewrite !callback_window by (assumption || lia).
    apply push_reading_length. apply Hal, Hj.
Qed.

(** C5 (as the code has it): for every joint, the value pushed onto its
    window (after dropping the oldest entry of a full window) is the
    reading as the dud and limit checks left it, taken before the fault
    substitution; the substitution comes after the push and affects only
    what is handed on: for a joint marked faulty by the message the
    outgoing angle is the current angle of the model, for any other joint
    it is the reading, and (outside a preview) the outgoing vector is the
    one given to [set_joint_angles]. *)
Theorem window_keeps_reading_model_gets_substitute
    (c : Ctl) (msg : ArmPosition) (joint : nat) :
  List.length (prev_angles c) = 6%nat ->
  (joint < 6)%nat ->
  let alpha := snd (checked_readings c msg) in
  let out := snd (sanitize c msg) in
  let c' := arm_position_callback c msg in
  nth joint (prev_angles c') [] =
    push_reading (nth joint alpha 0) (nth joint (prev_angles c) [])
  /\ (nth joint (faulty_encoders c') false = true ->
      nth joint out 0 = get_joint_angle (state c) joint)
  /\ (nth joint (faulty_encoders c') false = false ->
      nth joint out 0 = nth joint alpha 0)
  /\ (previewing c = false ->
      state c' = snd (FK (solver c) (set_joint_angles (state c) out))).
Proof.
  intros Hlen Hj alpha out c'.
  destruct (arm_position_callback_guard c msg) as (Hp & Hf & _).
  fold c' in Hp, Hf. rewrite Hp, Hf.
  pose proof (sanitize_frame c msg) as Hframe.
  destruct (checked_readings_frame c msg) as (Hf3 & Hp3 & _ & Hl3).
  assert (Hsan : sanitize c msg =
                 store_readings (jump_check (fst (checked_readings c msg)) alpha)
                                alpha).
  { unfold sanitize, alpha. destruct (checked_readings c msg); reflexivity. }
  set (c3 := fst (checked_readings c msg)) in *.
  destruct (jump_check_frame c3 alpha) as [Hf4 Hp4].
  set (c4 := jump_check c3 alpha) in *.
  destruct (store_loop 6 0 c4 alpha) as (Hfe & Hst & _ & _ & Hpin & _ & Hain & _).
  fold (store_readings c4 alpha) in Hfe, Hst, Hpin, Hain.
  assert (Hst4 : state c4 = state c).
  { destruct Hf4 as (H4 & _). destruct Hf3 as (H3 & _). congruence. }
  assert (Hpa : prev_angles c4 = prev_angles c) by congruence.
  subst out. rewrite Hsan.
  split; [|split; [|split]].
  - rewrite Hpin by (rewrite ?Hpa; lia). rewrite Hpa. reflexivity.
  - intros Hfl. rewrite Hfe in Hfl.
    rewrite Hain by (fold alpha in Hl3; lia). rewrite Hfl, Hst4. reflexivity.
  - intros Hfl. rewrite Hfe in Hfl.
    rewrite Hain by (fold alpha in Hl3; lia). rewrite Hfl. reflexivity.
  - intros Hprev. subst c'. unfold arm_position_callback.
    rewrite Hsan. unfold guard_frame in Hframe. rewrite Hsan in Hframe.
    destruct Hframe as (Hs5 & Hsv5 & _ & _ & _ & _ & _ & Hpv5 & _).
    destruct (store_readings c4 alpha) as [c5 a3]. simpl in *.
    rewrite Hpv5, Hprev. simpl. rewrite Hs5, Hsv5.
    destruct (FK (solver c) (set_joint_angles (state c) a3)). reflexivity.
Qed.

(** ** [preview] *)

(** An encoder message handled while [previewing] is set changes neither
    the model nor the solver, and publishes nothing. *)
Lemma arm_position_while_previewing (c : Ctl) (msg : ArmPosition) :
  previewing c = true ->
  state (arm_position_callback c msg) = state c
  /\ solver (arm_position_callback c msg) = solver c
  /\ lcm_ (arm_position_callback c msg) = lcm_ c.
Proof.
  intros Hp. unfold arm_position_callback.
  pose proof (sanitize_frame c msg) as Hf.
  destruct (sanitize c msg) as [c5 a3]. simpl in Hf.
  unfold guard_frame in Hf.
  destruct Hf as (Hst & Hsv & _ & Hl & _ & _ & _ & Hpv & _).
  rewrite Hpv, Hp. simpl. auto.
Qed.

(** The frames of the preview are drawn on the copy: the controller keeps
    its model and stays in preview. *)
Lemma preview_loop_frame (fuel : nat) :
  forall (c : Ctl) (hypo : ArmState) (t : Q),
    state (fst (fst (preview_loop fuel c hypo t))) = state c
    /\ previewing (fst (fst (preview_loop fuel c hypo t))) = previewing c.
Proof.
  induction fuel as [|fuel IH]; intros c hypo t; simpl.
  - auto.
  - destruct (Qle_bool t 1); [|simpl; auto].
    destruct (FK _ _) as [sv hypo2].
    match goal with |- context [preview_loop fuel ?c0 ?h0 ?t0] =>
      destruct (IH c0 h0 t0) as [H1 H2] end.
    rewrite H1, H2. simpl. auto.
Qed.

(** The rounding on values whose binary64 form is known: 0.1 + 0.2, a
    third, two ties between neighbours, a number that needs a positive
    exponent, and the increment of [preview], which lies above 1/50. *)
Example to_double_values :
  double_add (to_double 0.1) (to_double 0.2)
    == 1351079888211149 # 4503599627370496
  /\ double_div (-1) 3 == - (6004799503160661 # 18014398509481984)
  /\ to_double (inject_Z (2 ^ 53 + 1)) == inject_Z (2 ^ 53)
  /\ to_double (inject_Z (2 ^ 53 + 3)) == inject_Z (2 ^ 53 + 4)
  /\ double_div 30000000000 7 == 4493897142857143 # 1048576
  /\ double_div 1 num_steps == 5764607523034235 # 288230376151711744
  /\ 1 / 50 < double_div 1 num_steps.
Proof.
  repeat (split; [apply Qeq_bool_iff; vm_compute; reflexivity|]).
  apply Qlt_b_true. vm_compute. reflexivity.
Qed.

(** The loop variable does not depend on what the passes draw. *)
Lemma preview_loop_clock (fuel : nat) :
  forall (c : Ctl) (hypo : ArmState) (t : Q),
    snd (preview_loop fuel c hypo t) = preview_clock fuel t.
Proof.
  induction fuel as [|fuel IH]; intros c hypo t; simpl.
  - reflexivity.
  - destruct (Qle_bool t 1); [|reflexivity].
    destruct (FK _ _) as [sv hypo2]. apply IH.
Qed.

(** The loop of [preview] is left because [t] has passed 1, not because
    the fuel of the model ran out: [t] is at most 1 before each of the
    first 50 passes and above 1 after the 50th. *)
Lemma preview_clock_passes :
  (forall n, (n < 50)%nat -> preview_clock n 0 <= 1)
  /\ 1 < preview_clock 50 0
  /\ preview_clock preview_fuel 0 = preview_clock 50 0.
Proof.
  split; [|split].
  - intros n Hn. apply Qle_bool_iff.
    do 50 (destruct n as [|n]; [vm_compute; reflexivity|]). lia.
  - apply Qlt_b_true. vm_compute. reflexivity.
  - vm_compute. reflexivity.
Qed.

(** The loop variable before the last pass and after it: 0.98 and 1,
    each with the rounding errors of the sums before it. *)
Example preview_clock_values :
  preview_clock 49 0 == 8827055269646177 # 9007199254740992
  /\ preview_clock 50 0 == 2251799813685249 # 2251799813685248.
Proof. split; apply Qeq_bool_iff; vm_compute; reflexivity. Qed.

Lemma preview_loop_exits (c : Ctl) (hypo : ArmState) :
  1 < snd (preview_loop preview_fuel c hypo 0).
Proof.
  rewrite preview_loop_clock.
  destruct preview_clock_passes as (_ & H & E). rewrite E. exact H.
Qed.

(** C8: a preview leaves the controller's own model as it found it, and
    so does every stage of the preview: after any number of frames the
    controller still holds the model it entered with and [previewing] is
    set, and an encoder message handled at that point updates neither
    the model nor the solver and publishes nothing (no
    [set_joint_angles], no [FK], no /fk_transform). *)
Theorem preview_keeps_live_model (c : Ctl) (hypo : ArmState) :
  state (fst (preview c hypo)) = state c
  /\ forall (frames : nat) (msg : ArmPosition),
       let mid := fst (fst (preview_loop frames
                              (set_previewing (set_ik_enabled c true) true)
                              hypo 0)) in
       previewing mid = true
       /\ state mid = state c
       /\ state (arm_position_callback mid msg) = state c
       /\ solver (arm_position_callback mid msg) = solver mid
       /\ lcm_ (arm_position_callback mid msg) = lcm_ mid.
Proof.
  split.
  - unfold preview.
    destruct (preview_loop_frame preview_fuel
                (set_previewing (set_ik_enabled c true) true) hypo 0) as [H1 _].
    destruct (preview_loop preview_fuel _ hypo 0) as [[c2 h1] t1].
    simpl in *. exact H1.
  - intros frames msg mid.
    destruct (preview_loop_frame frames
                (set_previewing (set_ik_enabled c true) true) hypo 0) as [H1 H2].
    fold mid in H1, H2. simpl in H1, H2.
    destruct (arm_position_while_previewing mid msg H2) as (Ha & Hb & Hc).
    repeat split; auto. congruence.
Qed.

(** ** [execute_spline]: the encoder-error branch *)

Lemma emit_emit_all (c : Ctl) (evs : list (Event Transform)) (e : Event Transform) :
  emit (emit_all c evs) e = emit_all c (evs ++ [e]).
Proof.
  unfold emit, emit_all. simpl. rewrite <- app_assoc. reflexivity.
Qed.

Lemma publish_config_repeated (n : nat) (c : Ctl) (channel : string) :
  for_range 0 n (fun _ c0 =>
      publish_config c0 (get_joint_angles (state c0)) channel) c
  = emit_all c
      (repeat (Publish channel
                 (MsgArmPosition (as_arm_position (get_joint_angles (state c)))))
              n).
Proof.
  induction n as [|n IH].
  - unfold for_range, emit_all. simpl. rewrite app_nil_r. destruct c; reflexivity.
  - rewrite for_range_S, IH. unfold publish_config.
    rewrite emit_emit_all. simpl state.
    rewrite <- repeat_cons. reflexivity.
Qed.


(** ** [execute_spline]: following the spline *)

Lemma advance_spline_unfold (c : Ctl) (e : Executor) :
  advance_spline c e =
  let ahead := xadd (spline_t e) (Fin D_SPLINE_T) in
  let t1 := xadd (spline_t e) (pace c e) in
  let c1 := emit c (CallSpline ahead) in
  if xgt t1 (Fin 1) then
    (set_ik_enabled (set_enable_execute c1 false) false,
     mkExecutor (Fin 0) (pace c e))
  else
    let c2 := emit c1 (CallSpline t1) in
    if sim_mode c then
      (set_state c2 (set_joint_angles (state c) (commanded c e)),
       mkExecutor t1 (pace c e))
    else
      (publish_config c2 (to_encoder_units (state c) (commanded c e))
         "/ik_ra_control",
       mkExecutor t1 (pace c e)).
Proof.
  unfold advance_spline, pace, commanded, lookahead. cbv zeta.
  cbn [state emit motion_planner sim_mode].
  match goal with |- context [if xgt ?a ?b then _ else _] =>
    destruct (xgt a b) end; [reflexivity|].
  destruct (sim_mode c); reflexivity.
Qed.

(** What a pass that does not end the execution issues: in simulation
    mode the clamped setpoint becomes the state of the model, otherwise
    it is published in encoder units on /ik_ra_control. *)
Lemma tick_issues_commanded (c : Ctl) (e : Executor) :
  enable_execute c = true -> encoder_error c = false ->
  xgt (xadd (spline_t e) (pace c e)) (Fin 1) = false ->
  let c' := fst (execute_spline_tick c e) in
  if sim_mode c
  then state c' = set_joint_angles (state c) (commanded c e)
  else state c' = state c
       /\ exists log,
            lcm_ c' = log ++
              [Publish "/ik_ra_control"
                 (MsgArmPosition (emitted_setpoint (state c) (commanded c e)))].
Proof.
  intros Hen Herr Hgo. unfold execute_spline_tick.
  rewrite Hen, Herr, advance_spline_unfold. cbv zeta. rewrite Hgo.
  destruct (sim_mode c); simpl.
  - reflexivity.
  - split; [reflexivity|]. eexists. reflexivity.
Qed.

Lemma xlt_right_shape (a b : xdouble) :
  xlt a b = true -> b = PosInf \/ exists q, b = Fin q.
Proof.
  destruct a, b; simpl; intros H; try discriminate; eauto.
Qed.

(** The running maximum starts at -1 and only ever takes a value that
    compared greater: it is a number or plus infinity. *)
Lemma max_time_of_shape (st : ArmState) (init final : list Q) :
  max_time_of st init final = PosInf
  \/ exists m, max_time_of st init final = Fin m.
Proof.
  unfold max_time_of.
  apply (for_range_inv (fun x : xdouble => x = PosInf \/ exists m, x = Fin m)).
  - intros i x Hx. destruct (xlt x _) eqn:E; [|exact Hx].
    eapply xlt_right_shape; eassumption.
  - right. eexists. reflexivity.
Qed.

Lemma Qeq_bool_pos (x : Q) : 0 < x -> Qeq_bool x 0 = false.
Proof.
  intros H. destruct (Qeq_bool x 0) eqn:E; [|reflexivity].
  apply Qeq_bool_iff in E. rewrite E in H. discriminate.
Qed.

Lemma pace_shape (c : Ctl) (e : Executor) :
  0 < D_SPLINE_T -> 0 < SPLINE_WAIT_TIME ->
  pace c e = PosInf \/ exists dt, pace c e = Fin dt.
Proof.
  intros HD HW. unfold pace.
  destruct (max_time_of_shape (state c) (get_joint_angles (state c))
              (lookahead c e)) as [-> | [m ->]].
  - simpl. assert (E : Qlt_b SPLINE_WAIT_TIME 0 = false)
      by (apply Qlt_b_false; lra).
    rewrite E. simpl. eauto.
  - simpl. rewrite (Qeq_bool_pos _ HW).
    simpl. destruct (Qeq_bool (m / SPLINE_WAIT_TIME) 0); [|eauto].
    rewrite (Qeq_bool_pos _ HD).
    assert (E : Qlt_b 0 D_SPLINE_T = true) by (apply Qlt_b_true; exact HD).
    rewrite E. auto.
Qed.

Lemma upd_nth_id {A : Type} (i : nat) (d : A) (v : list A) :
  upd i (nth i v d) v = v.
Proof.
  revert i. induction v as [|y v IH]; intros [|i]; simpl; auto.
  rewrite IH. reflexivity.
Qed.

Lemma clamp_to_limits_nth (st : ArmState) (v : list Q) (j : nat) :
  (j < 6)%nat -> (j < List.length v)%nat ->
  nth j (clamp_to_limits st v) 0 =
  clamp (nth 0 (get_joint_limits st j) 0) (nth 1 (get_joint_limits st j) 0)
        (nth j v 0).
Proof.
  intros H6 Hj. unfold clamp_to_limits.
  rewrite (for_range_pointwise
             (fun i x => clamp (nth 0 (get_joint_limits st i) 0)
                               (nth 1 (get_joint_limits st i) 0) x)).
  - replace (j <? 0 + 6)%nat with true by (symmetry; apply Nat.ltb_lt; lia).
    reflexivity.
  - intros i w. unfold clamp.
    destruct (Qlt_b (nth i w 0) _); [reflexivity|].
    destruct (Qlt_b _ (nth i w 0)); [reflexivity|].
    symmetry. apply upd_nth_id.
  - assumption.
Qed.

Lemma clamp_to_limits_length (st : ArmState) (v : list Q) :
  List.length (clamp_to_limits st v) = List.length v.
Proof.
  unfold clamp_to_limits. apply for_range_length. intros i w.
  destruct (Qlt_b (nth i w 0) _); [apply length_upd|].
  destruct (Qlt_b _ (nth i w 0)); [apply length_upd | reflexivity].
Qed.

(** Clamping a value to limits that contain [x] does not move it further
    from [x]. *)
Lemma clamp_closer (lo hi x y b : Q) :
  lo <= x <= hi -> Qabs (y - x) <= b -> Qabs (clamp lo hi y - x) <= b.
Proof.
  intros [Hlo Hhi] Hy. apply Qabs_Qle_condition in Hy.
  apply Qabs_Qle_condition. unfold clamp.
  destruct (Qlt_b y lo) eqn:E1.
  - apply Qlt_b_true in E1. lra.
  - destruct (Qlt_b hi y) eqn:E2.
    + apply Qlt_b_true in E2. lra.
    + lra.
Qed.

Lemma pacing_speed (ms : Q) : ms * 3 / 4 / 1000 == ms * (3 # 4000).
Proof. field. Qed.

Lemma pacing_speed_pos (ms : Q) : 0 < ms -> 0 < ms * 3 / 4 / 1000.
Proof. intros H. rewrite pacing_speed. lra. Qed.

Lemma joint_time_fin (st : ArmState) (init final : list Q) (i : nat) :
  0 < get_joint_max_speed st i ->
  joint_time st init final i =
  Fin (Qabs (nth i final 0 - nth i init 0)
       / (get_joint_max_speed st i * 3 / 4 / 1000)).
Proof.
  intros Hs. unfold joint_time, xdiv. cbv zeta.
  rewrite Qeq_bool_pos; [reflexivity|].
  apply pacing_speed_pos, Hs.
Qed.

(** With positive top speeds the running maximum is a number that bounds
    the travel time of each of the joints a to e. *)
Lemma max_time_of_bound (st : ArmState) (init final : list Q) :
  (forall k, (k < 5)%nat -> 0 < get_joint_max_speed st k) ->
  exists m,
    max_time_of st init final = Fin m
    /\ forall i, (i < 5)%nat ->
         Qabs (nth i final 0 - nth i init 0)
         / (get_joint_max_speed st i * 3 / 4 / 1000) <= m.
Proof.
  intros Hs. unfold max_time_of.
  assert (H : forall n, (n <= 5)%nat ->
            exists m,
              for_range 0 n (fun i max_time =>
                let jt := joint_time st init final i in
                if xlt max_time jt then jt else max_time) (Fin (-1)) = Fin m
              /\ forall i, (i < n)%nat ->
                   Qabs (nth i final 0 - nth i init 0)
                   / (get_joint_max_speed st i * 3 / 4 / 1000) <= m).
  { induction n as [|n IH]; intros Hn.
    - exists (-1). split; [reflexivity|]. intros i Hi. lia.
    - destruct IH as (m & Hm & Hb); [lia|].
      rewrite for_range_S, Hm. change (0 + n)%nat with n. cbv zeta.
      rewrite joint_time_fin by (apply Hs; lia).
      unfold xlt.
      set (jt := Qabs (nth n final 0 - nth n init 0)
                 / (get_joint_max_speed st n * 3 / 4 / 1000)) in *.
      destruct (Qlt_b m jt) eqn:E.
      + apply Qlt_b_true in E. exists jt. split; [reflexivity|].
        intros i Hi. destruct (Nat.eq_dec i n) as [->|Hne].
        * fold jt. apply Qle_refl.
        * apply Qle_trans with m; [apply Hb; lia | apply Qlt_le_weak, E].
      + apply Qlt_b_false in E. exists m. split; [reflexivity|].
        intros i Hi. destruct (Nat.eq_dec i n) as [->|Hne].
        * fold jt. exact E.
        * apply Hb. lia. }
  apply H. lia.
Qed.

(** C1 (as the code has it): the increment [dt] of the spline parameter
    is [D_SPLINE_T * (SPLINE_WAIT_TIME / tau)], [tau] being the largest
    travel time of joints a to e to the look-ahead point, and it is sized
    for a straight run to that point.  For a joint [i] among a to e whose
    current angle [theta] lies within its limits, if the spline at
    [t + dt] is where the straight line from [theta] to the look-ahead
    point is after the fraction [dt / D_SPLINE_T], then the clamped
    setpoint of the pass differs from [theta] by at most
    [max_speed * 0.75 * SPLINE_WAIT_TIME / 1000]. *)
Theorem paced_setpoint_within_rate
    (c : Ctl) (e : Executor) (t dt : Q) (i : nat) :
  0 < D_SPLINE_T -> 0 < SPLINE_WAIT_TIME ->
  (forall k, (k < 5)%nat -> 0 < get_joint_max_speed (state c) k) ->
  (i < 5)%nat ->
  spline_t e = Fin t ->
  pace c e = Fin dt ->
  let theta := nth i (get_joint_angles (state c)) 0 in
  nth 0 (get_joint_limits (state c) i) 0 <= theta
    /\ theta <= nth 1 (get_joint_limits (state c) i) 0 ->
  nth i (get_spline_pos (motion_planner c) (Fin (t + dt))) 0 - theta
    == dt / D_SPLINE_T * (nth i (lookahead c e) 0 - theta) ->
  (exists tau,
      max_time_of (state c) (get_joint_angles (state c)) (lookahead c e)
        = Fin tau
      /\ 0 < tau
      /\ dt == D_SPLINE_T * (SPLINE_WAIT_TIME / tau))
  /\ Qabs (nth i (commanded c e) 0 - theta) <= rate_bound (state c) i.
Proof.
  intros HD HW Hs Hi Ht Hp theta Hlim Hline.
  destruct (max_time_of_bound (state c) (get_joint_angles (state c))
              (lookahead c e) Hs) as (m & Hm & Hb).
  pose proof (Hb i Hi) as Hbi. fold theta in Hbi.
  set (a := Qabs (nth i (lookahead c e) 0 - theta)) in *.
  set (ms := get_joint_max_speed (state c) i) in *.
  assert (Hms : 0 < ms) by (apply Hs; exact Hi).
  assert (Ha : 0 <= a) by apply Qabs_nonneg.
  assert (Hv : 0 < ms * 3 / 4 / 1000) by (apply pacing_speed_pos, Hms).
  (* the increment *)
  pose proof Hp as Hpace.
  unfold pace in Hp. rewrite Hm in Hp. simpl in Hp.
  rewrite (Qeq_bool_pos _ HW) in Hp.
  destruct (Qeq_bool (m / SPLINE_WAIT_TIME) 0) eqn:E.
  { rewrite (Qeq_bool_pos _ HD) in Hp.
    destruct (Qlt_b 0 D_SPLINE_T); discriminate. }
  apply Qeq_bool_neq in E. injection Hp as Hdt.
  assert (Hm0 : 0 <= m).
  { apply Qle_trans with (a / (ms * 3 / 4 / 1000)); [|exact Hbi].
    apply Qle_shift_div_l; [exact Hv | lra]. }
  assert (Hmne : ~ m == 0).
  { intros Hz. apply E. rewrite Hz. unfold Qdiv. ring. }
  assert (Hmpos : 0 < m) by (destruct (Qlt_le_dec 0 m) as [H|H]; [exact H|];
                              exfalso; apply Hmne; lra).
  assert (HWne : ~ SPLINE_WAIT_TIME == 0) by lra.
  assert (HDne : ~ D_SPLINE_T == 0) by lra.
  assert (Hrule : dt == D_SPLINE_T * (SPLINE_WAIT_TIME / m)).
  { rewrite <- Hdt. field. auto. }
  split.
  { exists m. auto. }
  (* the straight run stays within the bound *)
  assert (Hratio : dt / D_SPLINE_T == SPLINE_WAIT_TIME / m).
  { rewrite Hrule. field. auto. }
  assert (Har : a <= m * (ms * 3 / 4 / 1000)).
  { assert (H1 : a / (ms * 3 / 4 / 1000) * (ms * 3 / 4 / 1000)
                 <= m * (ms * 3 / 4 / 1000)).
    { apply Qmult_le_compat_r; [exact Hbi | lra]. }
    assert (H2 : a / (ms * 3 / 4 / 1000) * (ms * 3 / 4 / 1000) == a).
    { field. lra. }
    rewrite H2 in H1. exact H1. }
  assert (Hrpos : 0 < SPLINE_WAIT_TIME / m).
  { apply Qlt_shift_div_l; [exact Hmpos | lra]. }
  assert (Hstraight :
    Qabs (nth i (get_spline_pos (motion_planner c) (Fin (t + dt))) 0 - theta)
    <= rate_bound (state c) i).
  { rewrite Hline, Hratio, Qabs_Qmult.
    rewrite (Qabs_pos (SPLINE_WAIT_TIME / m)) by lra.
    fold a. unfold rate_bound. fold ms.
    apply Qle_trans with (SPLINE_WAIT_TIME / m * (m * (ms * 3 / 4 / 1000))).
    - apply Qmult_le_l; [exact Hrpos | exact Har].
    - apply Qle_lteq. right. field. auto. }
  (* clamping does not take the setpoint further away *)
  unfold commanded. rewrite Ht, Hpace. simpl xadd.
  set (g := get_spline_pos (motion_planner c) (Fin (t + dt))) in *.
  destruct (Nat.lt_ge_cases i (List.length g)) as [Hlen | Hlen].
  - rewrite clamp_to_limits_nth by (try assumption; lia).
    apply clamp_closer; assumption.
  - rewrite (nth_overflow (clamp_to_limits (state c) g))
      by (rewrite clamp_to_limits_length; exact Hlen).
    rewrite (nth_overflow g) in Hstraight by exact Hlen.
    exact Hstraight.
Qed.

(** C9: take a pass of the executor that follows the spline, with the
    spline parameter at [t].  Its first query of the spline is the
    look-ahead at [t + D_SPLINE_T], and that argument is greater than 1 as
    soon as [t] exceeds [1 - D_SPLINE_T].  If the pass goes on to ask for
    a setpoint, the argument [q] of that second query is at most 1 (it is
    the new value of the spline parameter); otherwise the pass ends the
    execution without a second query. *)
Theorem lookahead_leaves_unit_interval (c : Ctl) (e : Executor) (t : Q) :
  0 < D_SPLINE_T -> 0 < SPLINE_WAIT_TIME ->
  enable_execute c = true -> encoder_error c = false ->
  spline_t e = Fin t ->
  let c' := fst (execute_spline_tick c e) in
  let e' := snd (execute_spline_tick c e) in
  exists rest,
    lcm_ c' = lcm_ c ++ CallSpline (Fin (t + D_SPLINE_T)) :: rest
    /\ (1 - D_SPLINE_T < t -> 1 < t + D_SPLINE_T)
    /\ ((rest = [] /\ enable_execute c' = false)
        \/ exists q tail,
             rest = CallSpline (Fin q) :: tail
             /\ q <= 1
             /\ spline_t e' = Fin q
             /\ forall x, ~ In (CallSpline x) tail).
Proof.
  intros HD HW Hen Herr Ht. unfold execute_spline_tick.
  rewrite Hen, Herr, advance_spline_unfold, Ht. simpl xadd.
  assert (Harith : 1 - D_SPLINE_T < t -> 1 < t + D_SPLINE_T) by (intros; lra).
  destruct (pace_shape c e HD HW) as [Hp | [dt Hp]].
  - rewrite Hp. simpl. exists []. split; [reflexivity|]. split; [exact Harith|].
    left. auto.
  - rewrite Hp. simpl xadd. cbv zeta. unfold xgt, xlt.
    destruct (Qlt_b 1 (t + dt)) eqn:E.
    + simpl. exists []. split; [reflexivity|]. split; [exact Harith|].
      left. auto.
    + apply Qlt_b_false in E.
      destruct (sim_mode c); simpl.
      * exists [CallSpline (Fin (t + dt))].
        split; [rewrite <- app_assoc; reflexivity|]. split; [exact Harith|].
        right. exists (t + dt), []. repeat split; auto.
      * exists [CallSpline (Fin (t + dt));
                Publish "/ik_ra_control"
                  (MsgArmPosition
                     (as_arm_position
                        (to_encoder_units (state c)
                           (clamp_to_limits (state c)
                              (get_spline_pos (motion_planner c)
                                 (Fin (t + dt)))))))].
        split.
        { unfold commanded. rewrite Ht, Hp. simpl.
          rewrite <- !app_assoc. reflexivity. }
        split; [exact Harith|].
        right. eexists (t + dt), _. repeat split; auto.
        intros x [Hx | []]. discriminate.
Qed.

(** ** The shape of the guard in every reachable state *)

Lemma keeps_guard_refl (c : Ctl) : keeps_guard c c.
Proof. split; reflexivity. Qed.

Lemma keeps_guard_trans (c1 c2 c3 : Ctl) :
  keeps_guard c1 c2 -> keeps_guard c2 c3 -> keeps_guard c1 c3.
Proof. intros [H1 H2] [H3 H4]. split; congruence. Qed.

Lemma keeps_guard_well_formed (c c' : Ctl) :
  keeps_guard c c' -> well_formed c -> well_formed c'.
Proof.
  intros [Hp Hf] (H1 & H2 & H3). unfold well_formed.
  rewrite Hp, Hf. auto.
Qed.

Lemma preview_loop_keeps_guard (fuel : nat) :
  forall (c : Ctl) (hypo : ArmState) (t : Q),
    keeps_guard c (fst (fst (preview_loop fuel c hypo t))).
Proof.
  induction fuel as [|fuel IH]; intros c hypo t; simpl.
  - apply keeps_guard_refl.
  - destruct (Qle_bool t 1); [|apply keeps_guard_refl].
    destruct (FK _ _) as [sv hypo2].
    eapply keeps_guard_trans; [|apply IH]. split; reflexivity.
Qed.

Lemma preview_keeps_guard (c : Ctl) (hypo : ArmState) :
  keeps_guard c (fst (preview c hypo)).
Proof.
  unfold preview.
  pose proof (preview_loop_keeps_guard preview_fuel
                (set_previewing (set_ik_enabled c true) true) hypo 0) as H.
  destruct (preview_loop preview_fuel _ hypo 0) as [[c2 h1] t1].
  simpl in *. destruct H as [Hp Hf]. split; simpl; assumption.
Qed.

Lemma plan_path_keeps_guard (c : Ctl) (hypo : ArmState) (goal : list Q) :
  keeps_guard c (fst (plan_path c hypo goal)).
Proof.
  unfold plan_path.
  destruct (rrt_connect (motion_planner c) (solver c) hypo goal)
    as [[[pl sv] hypo1] found].
  destruct found.
  - eapply keeps_guard_trans; [|apply preview_keeps_guard]. split; reflexivity.
  - split; reflexivity.
Qed.

Lemma call_IK_keeps_guard (c : Ctl) (hypo : ArmState) (point : list Q)
    (rnd uo : bool) :
  keeps_guard c (fst (fst (call_IK c hypo point rnd uo))).
Proof.
  unfold call_IK. destruct (IK _ _ _ _ _) as [[sv h] sol]. split; reflexivity.
Qed.

Lemma ik_restarts_keeps_guard (n : nat) :
  forall (c : Ctl) (hypo : ArmState) (point : list Q) (uo : bool)
         (sol : list Q * bool),
    keeps_guard c (fst (fst (ik_restarts n c hypo point uo sol))).
Proof.
  induction n as [|n IH]; intros c hypo point uo sol; simpl.
  - apply keeps_guard_refl.
  - destruct (snd sol); [apply keeps_guard_refl|].
    pose proof (call_IK_keeps_guard c hypo point true uo) as H.
    destruct (call_IK c hypo point true uo) as [[c1 h1] s1]. simpl in H.
    eapply keeps_guard_trans; [exact H | apply IH].
Qed.

Lemma target_orientation_callback_keeps_guard (c : Ctl) (msg : TargetOrientation) :
  keeps_guard c (target_orientation_callback c msg).
Proof.
  unfold target_orientation_callback.
  destruct (negb (is_safe (solver c) (state c))); [split; reflexivity|].
  match goal with |- context [call_IK ?c0 ?h ?p ?r ?u] =>
    pose proof (call_IK_keeps_guard c0 h p r u) as H1;
    destruct (call_IK c0 h p r u) as [[c2 h1] s1] end.
  simpl in H1.
  match goal with |- context [ik_restarts ?n ?c0 ?h ?p ?u ?sl] =>
    pose proof (ik_restarts_keeps_guard n c0 h p u sl) as H2;
    destruct (ik_restarts n c0 h p u sl) as [[c3 h2] s2] end.
  simpl in H2.
  assert (H3 : keeps_guard c c3).
  { eapply keeps_guard_trans; [|exact H2].
    eapply keeps_guard_trans; [|exact H1]. split; reflexivity. }
  destruct (negb (snd s2)).
  - eapply keeps_guard_trans; [exact H3|]. split; reflexivity.
  - eapply keeps_guard_trans; [exact H3 | apply plan_path_keeps_guard].
Qed.

Lemma target_angles_callback_keeps_guard (c : Ctl) (msg : ArmPosition) :
  keeps_guard c (target_angles_callback c msg).
Proof.
  unfold target_angles_callback.
  eapply keeps_guard_trans; [|apply plan_path_keeps_guard]. split; reflexivity.
Qed.

Lemma execute_spline_tick_keeps_guard (c : Ctl) (e : Executor) :
  keeps_guard c (fst (execute_spline_tick c e)).
Proof.
  unfold execute_spline_tick.
  destruct (enable_execute c); [|apply keeps_guard_refl].
  destruct (encoder_error c).
  - unfold abort_on_encoder_error. simpl sim_mode.
    destruct (sim_mode c); [|split; reflexivity].
    rewrite publish_config_repeated. split; reflexivity.
  - rewrite advance_spline_unfold. cbv zeta.
    destruct (xgt _ _); [split; reflexivity|].
    destruct (sim_mode c); split; reflexivity.
Qed.

Lemma step_well_formed (s : Ctl * Executor) (i : Input) :
  well_formed (fst s) -> well_formed (fst (step s i)).
Proof.
  destruct s as [c e]. simpl. intros H.
  destruct i; simpl;
    try (eapply keeps_guard_well_formed; [|exact H]; split; reflexivity).
  - apply arm_position_callback_well_formed, H.
  - eapply keeps_guard_well_formed;
      [apply target_orientation_callback_keeps_guard | exact H].
  - eapply keeps_guard_well_formed;
      [apply target_angles_callback_keeps_guard | exact H].
  - unfold motion_execute_callback.
    destruct (preview_flag msg); [exact H|].
    eapply keeps_guard_well_formed; [|exact H]. split; reflexivity.
  - unfold ik_enabled_callback. simpl.
    destruct (negb (enabled msg));
      (eapply keeps_guard_well_formed; [|exact H]; split; reflexivity).
  - eapply keeps_guard_well_formed;
      [apply execute_spline_tick_keeps_guard | exact H].
  - unfold encoder_angles_sender_tick.
    destruct (sim_mode c); [|exact H].
    eapply keeps_guard_well_formed; [|exact H]. split; reflexivity.
Qed.

(** Every reachable controller has six windows of one length and six
    fault flags: the conditions on the shape of the guard under which the
    statements above are made always hold. *)
Lemma reachable_well_formed (s : Ctl * Executor) :
  reachable s -> well_formed (fst s).
Proof.
  intros (geom & sv & pl & err0 & msg0 & inputs & ->).
  unfold run. rewrite <- fold_left_rev_right.
  induction (rev inputs) as [|i l IH]; simpl.
  - unfold well_formed. simpl. repeat split. intros j Hj.
    do 6 (destruct j as [|j]; [reflexivity|]). lia.
  - apply step_well_formed, IH.
Qed.

(** With positive pacing constants the spline parameter is a number in
    every reachable state. *)
Lemma execute_spline_tick_finite (c : Ctl) (e : Executor) :
  0 < D_SPLINE_T -> 0 < SPLINE_WAIT_TIME ->
  (exists t, spline_t e = Fin t) ->
  exists t, spline_t (snd (execute_spline_tick c e)) = Fin t.
Proof.
  intros HD HW [t Ht]. unfold execute_spline_tick.
  destruct (enable_execute c); [|simpl; eauto].
  destruct (encoder_error c); [simpl; eauto|].
  rewrite advance_spline_unfold, Ht. cbv zeta.
  destruct (pace_shape c e HD HW) as [Hp | [dt Hp]]; rewrite Hp; simpl xadd.
  - simpl. eauto.
  - destruct (xgt (Fin (t + dt)) (Fin 1)); [simpl; eauto|].
    destruct (sim_mode c); simpl; eauto.
Qed.

Lemma reachable_spline_t_finite (s : Ctl * Executor) :
  0 < D_SPLINE_T -> 0 < SPLINE_WAIT_TIME ->
  reachable s -> exists t, spline_t (snd s) = Fin t.
Proof.
  intros HD HW (geom & sv & pl & err0 & msg0 & inputs & ->).
  unfold run. rewrite <- fold_left_rev_right.
  induction (rev inputs) as [|i l IH]; simpl.
  - eauto.
  - destruct (fold_right _ _ l) as [c e]. simpl in IH.
    destruct i; simpl; try exact IH.
    apply execute_spline_tick_finite; assumption.
Qed.

End ArmFacts.

(* ================================================================== *)
(** * Further properties of the handlers *)

Lemma upd_overflow {A : Type} (i : nat) (x : A) (v : list A) :
  (List.length v <= i)%nat -> upd i x v = v.
Proof.
  revert i. induction v as [|y v IH]; intros [|i] H; simpl in *; auto; try lia.
  rewrite IH by lia. reflexivity.
Qed.

Lemma existsb_nth_seq (P : Q -> bool) (l : list Q) :
  existsb (fun j => P (nth j l 0)) (seq 0 (List.length l)) = existsb P l.
Proof.
  induction l as [|x l IH]; simpl; [reflexivity|].
  rewrite existsb_seq_shift. simpl. rewrite IH. reflexivity.
Qed.

Section HandlerFacts.

Context {ArmState Transform Solver Planner : Type}.
Context {AM : ArmModel ArmState Transform}.
Context {KS : Kinematics ArmState Solver}.
Context {MP : Planning ArmState Solver Planner}.
Context {K : Constants}.

Local Abbreviation Ctl := (Controller ArmState Transform Solver Planner).

(** ** [check_dud_encoder] *)

(** Once a reading has been replaced by the angle of the model it stays
    that angle; so the passes amount to one test of the reading against
    all dud values. *)
Lemma dud_passes_spec (m : Q) (duds : list Q) (n : nat) (x : Q) :
  dud_passes m duds n x =
  if existsb (fun j => Qlt_b (Qabs (x - nth j duds 0)) DUD_ENCODER_EPSILON)
             (seq 0 n)
  then m else x.
Proof.
  unfold dud_passes. induction n as [|n IH].
  - reflexivity.
  - rewrite for_range_S, IH, seq_S, existsb_app. simpl.
    rewrite orb_false_r.
    destruct (existsb _ (seq 0 n)); simpl.
    + destruct (Qlt_b _ _); reflexivity.
    + reflexivity.
Qed.

Lemma dud_passes_S (m : Q) (duds : list Q) (n : nat) (x : Q) :
  dud_passes m duds (S n) x =
  if Qlt_b (Qabs (dud_passes m duds n x - nth n duds 0)) DUD_ENCODER_EPSILON
  then m else dud_passes m duds n x.
Proof. unfold dud_passes. rewrite for_range_S. reflexivity. Qed.

Lemma upd_upd {A : Type} (i : nat) (x y : A) (v : list A) :
  upd i x (upd i y v) = upd i x v.
Proof.
  revert i. induction v as [|z v IH]; intros [|i]; simpl; auto.
  rewrite IH. reflexivity.
Qed.

Lemma dud_inner_loop (c : Ctl) (i n : nat) (v : list Q) :
  for_range 0 n (fun j angles =>
      if Qlt_b (Qabs (nth i angles 0 - nth j (DUD_ENCODER_VALUES c) 0))
               DUD_ENCODER_EPSILON
      then upd i (get_joint_angle (state c) i) angles
      else angles) v
  = upd i (dud_passes (get_joint_angle (state c) i) (DUD_ENCODER_VALUES c) n
                      (nth i v 0)) v.
Proof.
  destruct (Nat.lt_ge_cases i (List.length v)) as [Hi | Hi].
  - induction n as [|n IH].
    + unfold dud_passes. rewrite !for_range_0. symmetry. apply upd_nth_id.
    + rewrite for_range_S, IH, dud_passes_S.
      rewrite nth_upd_same by exact Hi. simpl Nat.add.
      destruct (Qlt_b _ _); [apply upd_upd | reflexivity].
  - rewrite (upd_overflow i _ v Hi).
    apply (for_range_inv (fun w => w = v)); [|reflexivity].
    intros j w ->. destruct (Qlt_b _ _); [apply upd_overflow, Hi | reflexivity].
Qed.

(** X1.  [check_dud_encoder] replaces exactly the readings that lie within
    [DUD_ENCODER_EPSILON] of one of the dud values, by the current angle
    of the model for that joint; every other reading is returned as it
    came. *)
Theorem dud_readings_take_model_angle (c : Ctl) (angles : list Q) (i : nat) :
  (i < List.length angles)%nat ->
  ((exists d, In d (DUD_ENCODER_VALUES c)
              /\ Qabs (nth i angles 0 - d) < DUD_ENCODER_EPSILON) ->
   nth i (check_dud_encoder c angles) 0 = get_joint_angle (state c) i)
  /\ ((forall d, In d (DUD_ENCODER_VALUES c) ->
                 DUD_ENCODER_EPSILON <= Qabs (nth i angles 0 - d)) ->
      nth i (check_dud_encoder c angles) 0 = nth i angles 0).
Proof.
  intros Hi. unfold check_dud_encoder.
  rewrite (for_range_pointwise
             (fun k x => dud_passes (get_joint_angle (state c) k)
                           (DUD_ENCODER_VALUES c)
                           (List.length (DUD_ENCODER_VALUES c)) x))
    by (intros; try apply dud_inner_loop; assumption).
  replace (i <? 0 + List.length angles)%nat with true
    by (symmetry; apply Nat.ltb_lt; lia).
  simpl andb. rewrite dud_passes_spec.
  rewrite (existsb_nth_seq
             (fun d => Qlt_b (Qabs (nth i angles 0 - d)) DUD_ENCODER_EPSILON)).
  split.
  - intros (d & Hin & Hd).
    replace (existsb _ _) with true; [reflexivity|].
    symmetry. apply existsb_exists. exists d. split; [exact Hin|].
    apply Qlt_b_true, Hd.
  - intros Hall.
    replace (existsb _ _) with false; [reflexivity|].
    symmetry. apply not_true_is_false. intros E.
    apply existsb_exists in E. destruct E as (d & Hin & Hd).
    apply Qlt_b_true in Hd. specialize (Hall d Hin). lra.
Qed.

(** ** [check_joint_limits] *)

Lemma limit_loop (n : nat) :
  forall (lo : nat) (c : Ctl) (angles : list Q),
    (lo + n <= List.length angles)%nat ->
    let r := for_range lo n check_joint_limits_at (c, angles) in
    let breach j := limit_breach (nth 0 (get_joint_limits (state c) j) 0)
                                 (nth 1 (get_joint_limits (state c) j) 0)
                                 (nth j angles 0) in
    state (fst r) = state c
    /\ List.length (snd r) = List.length angles
    /\ (forall j, (lo <= j < lo + n)%nat ->
          nth j (snd r) 0 =
          limit_fix (nth 0 (get_joint_limits (state c) j) 0)
                    (nth 1 (get_joint_limits (state c) j) 0)
                    (nth j angles 0))
    /\ (forall j, ~ (lo <= j < lo + n)%nat -> nth j (snd r) 0 = nth j angles 0)
    /\ encoder_error (fst r) = encoder_error c || existsb breach (seq lo n).
Proof.
  induction n as [|n IH]; intros lo c angles Hlen r breach.
  - subst r. rewrite for_range_0. simpl. rewrite orb_false_r.
    repeat split; auto. intros j Hj. lia.
  - subst r. rewrite for_range_S.
    destruct (IH lo c angles) as (Hs & Hl & Hin & Hout & He); [lia|].
    destruct (for_range lo n check_joint_limits_at (c, angles)) as [cn an].
    simpl in Hs, Hl, Hin, Hout, He.
    rewrite seq_S, existsb_app. simpl existsb. rewrite orb_false_r.
    assert (Ha : nth (lo + n) an 0 = nth (lo + n) angles 0)
      by (apply Hout; lia).
    unfold check_joint_limits_at. rewrite Hs, Ha.
    fold breach. unfold breach at 2. unfold limit_breach.
    assert (Hfix : forall x j, (lo <= j < lo + S n)%nat ->
               limit_fix (nth 0 (get_joint_limits (state c) (lo + n)) 0)
                         (nth 1 (get_joint_limits (state c) (lo + n)) 0)
                         (nth (lo + n) angles 0) = x ->
               nth j (upd (lo + n) x an) 0 =
               limit_fix (nth 0 (get_joint_limits (state c) j) 0)
                         (nth 1 (get_joint_limits (state c) j) 0)
                         (nth j angles 0)).
    { intros x j Hj Hx. destruct (Nat.eq_dec (lo + n) j) as [Heq|Hne].
      - subst j. rewrite nth_upd_same by lia. symmetry. exact Hx.
      - rewrite nth_upd_other by assumption. apply Hin. lia. }
    assert (Hsame : forall j, (lo <= j < lo + S n)%nat ->
               limit_fix (nth 0 (get_joint_limits (state c) (lo + n)) 0)
                         (nth 1 (get_joint_limits (state c) (lo + n)) 0)
                         (nth (lo + n) angles 0) = nth (lo + n) angles 0 ->
               nth j an 0 =
               limit_fix (nth 0 (get_joint_limits (state c) j) 0)
                         (nth 1 (get_joint_limits (state c) j) 0)
                         (nth j angles 0)).
    { intros j Hj Hx. destruct (Nat.eq_dec (lo + n) j) as [Heq|Hne].
      - subst j. rewrite Hx. exact Ha.
      - apply Hin. lia. }
    unfold limit_fix in Hfix, Hsame.
    destruct (Qlt_b (nth (lo + n) angles 0) _
              && Qlt_b (Qabs (nth (lo + n) angles 0 - _)) _) eqn:E1.
    { simpl. rewrite length_upd, orb_false_r.
      split; [exact Hs|]. split; [exact Hl|].
      split; [intros j Hj; apply Hfix; [exact Hj | reflexivity]|].
      split; [|exact He].
      intros j Hj. rewrite nth_upd_other by lia. apply Hout. lia. }
    destruct (Qlt_b _ (nth (lo + n) angles 0)
              && Qlt_b (Qabs (nth (lo + n) angles 0 - _)) _) eqn:E2.
    { simpl. rewrite length_upd, orb_false_r.
      split; [exact Hs|]. split; [exact Hl|].
      split; [intros j Hj; apply Hfix; [exact Hj | reflexivity]|].
      split; [|exact He].
      intros j Hj. rewrite nth_upd_other by lia. apply Hout. lia. }
    destruct (Qlt_b (nth (lo + n) angles 0) _ || Qlt_b _ (nth (lo + n) angles 0))
      eqn:E3.
    { simpl. rewrite !orb_true_r.
      split; [exact Hs|]. split; [exact Hl|].
      split; [intros j Hj; apply Hsame; [exact Hj | reflexivity]|].
      split; [|reflexivity].
      intros j Hj. apply Hout. lia. }
    simpl. rewrite orb_false_r.
    split; [exact Hs|]. split; [exact Hl|].
    split; [intros j Hj; apply Hsame; [exact Hj | reflexivity]|].
    split; [|exact He].
    intros j Hj. apply Hout. lia.
Qed.


Lemma limit_breach_iff (lo hi a : Q) :
  lo <= hi ->
  limit_breach lo hi a = true <->
  (a < lo /\ ACCEPTABLE_BEYOND_LIMIT <= lo - a)
  \/ (hi < a /\ ACCEPTABLE_BEYOND_LIMIT <= a - hi).
Proof.
  intros Hlh. unfold limit_breach.
  destruct (Qlt_b a lo) eqn:E1; cbn [andb orb].
  - apply Qlt_b_true in E1.
    assert (E2 : Qlt_b hi a = false) by (apply Qlt_b_false; lra).
    rewrite E2. cbn [andb orb].
    destruct (Qlt_b (Qabs (a - lo)) ACCEPTABLE_BEYOND_LIMIT) eqn:E3.
    + apply Qlt_b_true, Qabs_Qlt_condition in E3.
      split; [intros Hd; discriminate Hd|].
      intros [[_ H] | [H _]]; lra.
    + apply Qlt_b_false in E3. split; [|reflexivity]. intros _. left.
      split; [exact E1|].
      destruct (Qlt_le_dec (lo - a) ACCEPTABLE_BEYOND_LIMIT) as [H|H]; [|exact H].
      exfalso. apply (Qle_not_lt _ _ E3). apply Qabs_Qlt_condition. lra.
  - apply Qlt_b_false in E1.
    destruct (Qlt_b hi a) eqn:E2; cbn [andb orb].
    + apply Qlt_b_true in E2.
      destruct (Qlt_b (Qabs (a - hi)) ACCEPTABLE_BEYOND_LIMIT) eqn:E3.
      * apply Qlt_b_true, Qabs_Qlt_condition in E3.
        split; [intros Hd; discriminate Hd|].
        intros [[H _] | [_ H]]; lra.
      * apply Qlt_b_false in E3. split; [|reflexivity]. intros _. right.
        split; [exact E2|].
        destruct (Qlt_le_dec (a - hi) ACCEPTABLE_BEYOND_LIMIT) as [H|H]; [|exact H].
        exfalso. apply (Qle_not_lt _ _ E3). apply Qabs_Qlt_condition. lra.
    + apply Qlt_b_false in E2. split; [intros Hd; discriminate Hd|].
      intros [[H _] | [H _]]; lra.
Qed.


(** X3.  [check_joint_limits] raises [encoder_error] exactly when some
    reading lies outside the limits of its joint by
    [ACCEPTABLE_BEYOND_LIMIT] or more; a flag that was already set stays
    set. *)
Theorem limit_check_raises_error_iff (c : Ctl) (angles : list Q) :
  (forall i, (i < List.length angles)%nat ->
     nth 0 (get_joint_limits (state c) i) 0
     <= nth 1 (get_joint_limits (state c) i) 0) ->
  encoder_error (fst (check_joint_limits c angles)) = true <->
  encoder_error c = true
  \/ exists i, (i < List.length angles)%nat
       /\ ((nth i angles 0 < nth 0 (get_joint_limits (state c) i) 0
            /\ ACCEPTABLE_BEYOND_LIMIT
               <= nth 0 (get_joint_limits (state c) i) 0 - nth i angles 0)
           \/ (nth 1 (get_joint_limits (state c) i) 0 < nth i angles 0
               /\ ACCEPTABLE_BEYOND_LIMIT
                  <= nth i angles 0 - nth 1 (get_joint_limits (state c) i) 0)).
Proof.
  intros Hlh. unfold check_joint_limits.
  destruct (limit_loop (List.length angles) 0 c angles)
    as (_ & _ & _ & _ & Herr); [lia|].
  rewrite Herr, orb_true_iff, existsb_exists. split.
  - intros [H | (i & Hin & H)]; [left; exact H | right].
    apply in_seq in Hin. exists i. split; [lia|].
    apply limit_breach_iff; [apply Hlh; lia | exact H].
  - intros [H | (i & Hi & H)]; [left; exact H | right].
    exists i. split; [apply in_seq; lia|].
    apply limit_breach_iff; [apply Hlh; exact Hi | exact H].
Qed.

(** ** The jump check while the windows fill *)

(** X4.  While the windows hold fewer than [MAX_NUM_PREV_ANGLES] readings
    an encoder message marks a joint with a non-empty window exactly when
    at least one comparison with that window fails, however large
    [MAX_FISHY_VALS] is; a joint whose window is still empty keeps the
    mark it had. *)
Theorem filling_window_fault_rule
    (c : Ctl) (msg : ArmPosition) (joint : nat) :
  (List.length (nth 0 (prev_angles c) []) < MAX_NUM_PREV_ANGLES)%nat ->
  List.length (faulty_encoders c) = 6%nat ->
  (joint < 6)%nat ->
  let alpha := snd (checked_readings c msg) in
  let c' := arm_position_callback c msg in
  (nth joint (prev_angles c) [] = [] ->
     nth joint (faulty_encoders c') false = nth joint (faulty_encoders c) false)
  /\ (nth joint (prev_angles c) [] <> [] ->
        (nth joint (faulty_encoders c') false = true
         <-> exists k, (k < List.length (nth joint (prev_angles c) []))%nat
               /\ violated (nth joint alpha 0) (nth joint (prev_angles c) []) k
                  = true)).
Proof.
  intros Hpart Hlen Hj alpha c'.
  destruct (partial_window_outcome c msg Hpart Hlen) as [Hmark _].
  fold alpha c' in Hmark. rewrite (Hmark joint Hj). split.
  - intros Hw. rewrite Hw. unfold jumps. reflexivity.
  - intros Hw. destruct (jumps _ _) eqn:E.
    + split; [|reflexivity]. intros _. apply jumps_true_iff, E.
    + destruct (nth joint (prev_angles c) []) eqn:Ew; [congruence|].
      split; [intros Hd; discriminate Hd|].
      intros H. apply jumps_true_iff in H. congruence.
Qed.

(** ** The windows *)

Lemma push_reading_firstn (a : Q) (w : list Q) :
  (1 <= MAX_NUM_PREV_ANGLES)%nat ->
  (List.length w <= MAX_NUM_PREV_ANGLES)%nat ->
  push_reading a w = a :: firstn (MAX_NUM_PREV_ANGLES - 1) w.
Proof.
  intros H1 Hw. unfold push_reading. f_equal.
  destruct (Nat.leb MAX_NUM_PREV_ANGLES (List.length w)) eqn:E.
  - apply Nat.leb_le in E. rewrite removelast_firstn_len.
    replace (Nat.pred (List.length w)) with (MAX_NUM_PREV_ANGLES - 1)%nat by lia.
    reflexivity.
  - apply Nat.leb_gt in E. symmetry. apply firstn_all2. lia.
Qed.

(** X5.  An encoder message puts the checked reading of each joint at the
    front of its window and keeps the [MAX_NUM_PREV_ANGLES - 1] newest
    entries behind it: a full window loses its oldest entry, a window
    that is not full loses nothing. *)
Theorem message_window (c : Ctl) (msg : ArmPosition) (joint : nat) :
  List.length (prev_angles c) = 6%nat ->
  (joint < 6)%nat ->
  (1 <= MAX_NUM_PREV_ANGLES)%nat ->
  (List.length (nth joint (prev_angles c) []) <= MAX_NUM_PREV_ANGLES)%nat ->
  nth joint (prev_angles (arm_position_callback c msg)) [] =
  nth joint (snd (checked_readings c msg)) 0
  :: firstn (MAX_NUM_PREV_ANGLES - 1) (nth joint (prev_angles c) []).
Proof.
  intros Hlen Hj H1 Hw.
  rewrite callback_window by assumption.
  apply push_reading_firstn; assumption.
Qed.

Lemma step_guard_cases (s : Ctl * Executor) (i : Input) :
  keeps_guard (fst s) (fst (step s i))
  \/ exists msg, fst (step s i) = arm_position_callback (fst s) msg.
Proof.
  destruct s as [c e]. destruct i; simpl;
    try (left; split; reflexivity).
  - right. eauto.
  - left. apply target_orientation_callback_keeps_guard.
  - left. apply target_angles_callback_keeps_guard.
  - left. unfold motion_execute_callback.
    destruct (preview_flag msg); split; reflexivity.
  - left. unfold ik_enabled_callback. simpl.
    destruct (negb (enabled msg)); split; reflexivity.
  - left. apply execute_spline_tick_keeps_guard.
  - left. unfold encoder_angles_sender_tick.
    destruct (sim_mode c); split; reflexivity.
Qed.

(** X6.  In every reachable state the controller has six fault flags and
    six windows, the windows all hold the same number of readings, and
    that number is at most [MAX_NUM_PREV_ANGLES]: the test of the window
    of joint a on line 61 decides for all joints, and the full-window
    branch never reads past the end of a window. *)
Theorem reachable_windows (s : Ctl * Executor) :
  (1 <= MAX_NUM_PREV_ANGLES)%nat ->
  reachable s ->
  List.length (prev_angles (fst s)) = 6%nat
  /\ List.length (faulty_encoders (fst s)) = 6%nat
  /\ exists n, (n <= MAX_NUM_PREV_ANGLES)%nat
       /\ forall j, (j < 6)%nat ->
            List.length (nth j (prev_angles (fst s)) []) = n.
Proof.
  intros H1 (geom & sv & pl & err0 & msg0 & inputs & ->).
  assert (H : well_formed (fst (run (MRoverArm geom sv pl err0 msg0,
                                     executor_start) inputs))
              /\ (List.length
                    (nth 0 (prev_angles
                              (fst (run (MRoverArm geom sv pl err0 msg0,
                                         executor_start) inputs))) [])
                  <= MAX_NUM_PREV_ANGLES)%nat).
  { unfold run. rewrite <- fold_left_rev_right.
    induction (rev inputs) as [|i l IH]; simpl.
    - split; [|simpl; lia].
      unfold well_formed. simpl. repeat split. intros j Hj.
      do 6 (destruct j as [|j]; [reflexivity|]). lia.
    - destruct IH as [Hwf Hb].
      split; [apply step_well_formed, Hwf|].
      destruct (step_guard_cases (fold_right (fun y x => step x y)
                                    (MRoverArm geom sv pl err0 msg0,
                                     executor_start) l) i)
        as [[Hp _] | [msg Hm]].
      + rewrite Hp. exact Hb.
      + rewrite Hm. destruct Hwf as (Hp6 & _ & _).
        rewrite callback_window by (assumption || lia).
        rewrite push_reading_firstn by assumption.
        simpl. rewrite length_firstn. lia. }
  destruct H as [(Hp & Hf & Hal) Hb].
  split; [exact Hp|]. split; [exact Hf|].
  eexists. split; [exact Hb|]. exact Hal.
Qed.

(** ** What an encoder message publishes *)

(** X7.  Outside a preview an encoder message makes one call of [FK] and
    one publication, on /fk_transform, of the six transforms of the model
    as they are after that call; it publishes nothing else. *)
Theorem encoder_message_publishes_transforms (c : Ctl) (msg : ArmPosition) :
  previewing c = false ->
  lcm_ (arm_position_callback c msg) =
  lcm_ c ++
  [CallFK;
   Publish "/fk_transform"
     (MsgFKTransform
        (map (get_joint_transform (state (arm_position_callback c msg)))
             (seq 0 6)))].
Proof.
  intros Hp. unfold arm_position_callback.
  pose proof (sanitize_frame c msg) as Hf.
  destruct (sanitize c msg) as [c5 a3]. simpl in Hf.
  destruct Hf as (_ & _ & _ & Hl & _ & _ & _ & Hpv & _).
  rewrite Hpv, Hp. simpl.
  destruct (FK _ _) as [sv st]. simpl. rewrite Hl, <- app_assoc. reflexivity.
Qed.

(** ** Planning and previewing *)

Lemma command_frame_refl (c : Ctl) : command_frame c c.
Proof. unfold command_frame. repeat split; reflexivity. Qed.

Lemma command_frame_trans (c1 c2 c3 : Ctl) :
  command_frame c1 c2 -> command_frame c2 c3 -> command_frame c1 c3.
Proof.
  unfold command_frame. intros H12 H23.
  repeat match goal with H : _ /\ _ |- _ => destruct H end.
  repeat split; congruence.
Qed.

Lemma preview_loop_events (fuel : nat) :
  forall (c : Ctl) (hypo : ArmState) (t : Q),
    let c' := fst (fst (preview_loop fuel c hypo t)) in
    command_frame c c'
    /\ ik_enabled c' = ik_enabled c
    /\ previewing c' = previewing c
    /\ motion_planner c' = motion_planner c
    /\ exists evs, lcm_ c' = lcm_ c ++ evs
                   /\ frames_at (preview_times fuel t) evs.
Proof.
  induction fuel as [|fuel IH]; intros c hypo t c'; subst c'; simpl.
  - repeat split; try reflexivity. exists []. rewrite app_nil_r.
    split; [reflexivity | constructor].
  - destruct (Qle_bool t 1) eqn:E.
    + destruct (FK _ _) as [sv hypo2].
      match goal with |- context [preview_loop fuel ?c0 ?h0 ?t0] =>
        destruct (IH c0 h0 t0) as (Hf & Hi & Hp & Hm & evs & Hl & Hev) end.
      split; [eapply command_frame_trans; [|exact Hf];
              unfold command_frame; repeat split; reflexivity|].
      split; [rewrite Hi; reflexivity|].
      split; [rewrite Hp; reflexivity|].
      split; [rewrite Hm; reflexivity|].
      eexists. split.
      * rewrite Hl. unfold publish_transforms, emit. simpl.
        rewrite <- !app_assoc. simpl. reflexivity.
      * constructor. exact Hev.
    + simpl. repeat split; try reflexivity.
      exists []. rewrite app_nil_r. split; [reflexivity | constructor].
Qed.

(** The parameters of the frames of a preview: 50 of them, from 0 on, all
    below 1. *)
Lemma preview_times_bounds :
  List.length (preview_times preview_fuel 0) = 50%nat
  /\ hd 1 (preview_times preview_fuel 0) = 0
  /\ Forall (fun t => 0 <= t /\ t < 1) (preview_times preview_fuel 0).
Proof.
  split; [vm_compute; reflexivity|]. split; [vm_compute; reflexivity|].
  apply Forall_forall. intros t Ht.
  assert (H : forallb (fun t => Qle_bool 0 t && Qlt_b t 1)
                      (preview_times preview_fuel 0) = true)
    by (vm_compute; reflexivity).
  rewrite forallb_forall in H. specialize (H t Ht).
  apply andb_true_iff in H. destruct H as [H0 H1].
  split; [apply Qle_bool_iff, H0 | apply Qlt_b_true, H1].
Qed.

Lemma frames_are_frame_events (ts : list Q) (evs : list (Event Transform)) :
  frames_at ts evs ->
  Forall (fun t => 0 <= t /\ t < 1) ts ->
  Forall frame_event evs.
Proof.
  induction 1 as [|t ts tm evs H IH]; intros Hts; [constructor|].
  inversion Hts as [|? ? [H0 H1] Hrest]; subst.
  repeat constructor; auto. simpl. lra.
Qed.

Lemma preview_events (c : Ctl) (hypo : ArmState) :
  previewing (fst (preview c hypo)) = false
  /\ ik_enabled (fst (preview c hypo)) = true
  /\ command_frame c (fst (preview c hypo))
  /\ exists evs,
       lcm_ (fst (preview c hypo)) =
       lcm_ c ++ evs ++
       [Publish "/debug_message" (MsgDebug (mkDebugMessage false "Preview Done"))]
       /\ frames_at (preview_times preview_fuel 0) evs.
Proof.
  unfold preview.
  destruct (preview_loop_events preview_fuel
              (set_previewing (set_ik_enabled c true) true) hypo 0)
    as (Hf & Hi & Hp & _ & evs & Hl & Hev).
  destruct (preview_loop preview_fuel _ hypo 0) as [[c2 h1] t1].
  cbn [fst snd] in Hf, Hi, Hp, Hl |- *.
  split; [reflexivity|]. split; [exact Hi|].
  split.
  - unfold command_frame in *.
    repeat match goal with H : _ /\ _ |- _ => destruct H end.
    repeat split; assumption.
  - exists evs. split; [|exact Hev].
    cbn [lcm_ set_previewing publish_debug emit].
    rewrite Hl, <- app_assoc. reflexivity.
Qed.


Lemma frame_is_plan_event (evs : list (Event Transform)) :
  Forall frame_event evs -> Forall plan_event evs.
Proof.
  intros H. eapply Forall_impl; [|exact H]. intros ev Hev. left. exact Hev.
Qed.

Lemma plan_path_events (c : Ctl) (hypo : ArmState) (goal : list Q) :
  command_frame c (fst (plan_path c hypo goal))
  /\ exists evs,
       lcm_ (fst (plan_path c hypo goal)) = lcm_ c ++ CallRRT :: evs
       /\ Forall plan_event evs.
Proof.
  unfold plan_path.
  destruct (rrt_connect (motion_planner c) (solver c) hypo goal)
    as [[[pl sv] hypo1] found].
  destruct found.
  - match goal with |- context [preview ?c0 ?h0] =>
      destruct (preview_events c0 h0) as (_ & _ & Hf & evs & Hl & Hfr) end.
    pose proof (frames_are_frame_events _ _ Hfr
                  (proj2 (proj2 preview_times_bounds))) as Hev.
    split.
    + eapply command_frame_trans; [|exact Hf].
      unfold command_frame. repeat split; reflexivity.
    + eexists. split.
      * rewrite Hl. simpl. rewrite <- app_assoc. simpl. reflexivity.
      * apply Forall_app. split; [apply frame_is_plan_event, Hev|].
        constructor; [|constructor]. right. eauto.
  - simpl. split; [unfold command_frame; repeat split; reflexivity|].
    eexists. split; [rewrite <- app_assoc; simpl; reflexivity|].
    constructor; [|constructor]. right. eauto.
Qed.

(** X9.  A joint-angle target always leaves [enable_execute] cleared and
    never writes the model, the mode or the encoder guard, whether or not
    a path is found; what it appends to the log is the call of the
    planner followed only by preview frames and popups. *)
Theorem target_angles_cancels_and_keeps_model (c : Ctl) (msg : ArmPosition) :
  enable_execute (target_angles_callback c msg) = false
  /\ command_frame (set_enable_execute c false) (target_angles_callback c msg)
  /\ exists evs,
       lcm_ (target_angles_callback c msg) = lcm_ c ++ CallRRT :: evs
       /\ Forall plan_event evs.
Proof.
  unfold target_angles_callback.
  destruct (plan_path_events (set_enable_execute c false)
              (state (set_enable_execute c false)) (msg_angles msg))
    as (Hf & evs & Hl & Hev).
  split; [|split; [exact Hf|]].
  - destruct Hf as (_ & He & _). rewrite He. reflexivity.
  - exists evs. split; [exact Hl | exact Hev].
Qed.

(** X10.  When the planner finds no path for a joint-angle target, the
    handler appends the call of the planner and the popup
    "Unable to plan path!" and nothing else: no spline query, no frame,
    and [previewing] and [ik_enabled] stay as they were. *)
Theorem plan_failure_reported (c : Ctl) (msg : ArmPosition) :
  snd (rrt_connect (motion_planner c) (solver c) (state c) (msg_angles msg))
    = false ->
  lcm_ (target_angles_callback c msg) =
    lcm_ c ++
    [CallRRT;
     Publish "/debug_message"
       (MsgDebug (mkDebugMessage false "Unable to plan path!"))]
  /\ previewing (target_angles_callback c msg) = previewing c
  /\ ik_enabled (target_angles_callback c msg) = ik_enabled c
  /\ enable_execute (target_angles_callback c msg) = false
  /\ state (target_angles_callback c msg) = state c.
Proof.
  intros Hfail. unfold target_angles_callback, plan_path.
  simpl motion_planner. simpl solver. simpl state.
  destruct (rrt_connect (motion_planner c) (solver c) (state c) (msg_angles msg))
    as [[[pl sv] hypo1] found].
  simpl in Hfail. subst found. simpl.
  rewrite <- app_assoc. simpl. repeat split; reflexivity.
Qed.

(** ** Inverse kinematics with restarts *)

Lemma call_IK_events (c : Ctl) (hypo : ArmState) (point : list Q)
    (rnd uo : bool) :
  command_frame c (fst (fst (call_IK c hypo point rnd uo)))
  /\ ik_enabled (fst (fst (call_IK c hypo point rnd uo))) = ik_enabled c
  /\ previewing (fst (fst (call_IK c hypo point rnd uo))) = previewing c
  /\ motion_planner (fst (fst (call_IK c hypo point rnd uo))) = motion_planner c
  /\ lcm_ (fst (fst (call_IK c hypo point rnd uo))) = lcm_ c ++ [CallIK rnd]
  /\ snd (call_IK c hypo point rnd uo)
     = snd (IK (solver c) hypo point rnd uo).
Proof.
  unfold call_IK. destruct (IK _ _ _ _ _) as [[sv h] sol]. simpl.
  unfold command_frame. repeat split; reflexivity.
Qed.

(** The restarts stop at the first solution; each one is a call of [IK]
    with a random start; if the outcome is still a failure, all [n] were
    made. *)
Lemma ik_restarts_events (n : nat) :
  forall (c : Ctl) (hypo : ArmState) (point : list Q) (uo : bool)
         (sol : list Q * bool),
    let r := ik_restarts n c hypo point uo sol in
    command_frame c (fst (fst r))
    /\ ik_enabled (fst (fst r)) = ik_enabled c
    /\ previewing (fst (fst r)) = previewing c
    /\ motion_planner (fst (fst r)) = motion_planner c
    /\ exists k, (k <= n)%nat
         /\ lcm_ (fst (fst r)) = lcm_ c ++ repeat (CallIK true) k
         /\ (snd (snd r) = false -> k = n)
         /\ (snd sol = true -> k = 0%nat).
Proof.
  induction n as [|n IH]; intros c hypo point uo sol r; subst r; simpl.
  - split; [apply command_frame_refl|]. repeat split; try reflexivity.
    exists 0%nat. simpl. rewrite app_nil_r. auto.
  - destruct (snd sol) eqn:Es.
    + simpl. split; [apply command_frame_refl|]. repeat split; try reflexivity.
      exists 0%nat. simpl. rewrite app_nil_r.
      repeat split; auto; try lia. congruence.
    + destruct (call_IK_events c hypo point true uo)
        as (Hf & Hi & Hp & Hm & Hl & _).
      destruct (call_IK c hypo point true uo) as [[c1 h1] s1]. simpl in *.
      destruct (IH c1 h1 point uo s1) as (Hf' & Hi' & Hp' & Hm' & k & Hk & Hl' & Hall & _).
      split; [eapply command_frame_trans; eassumption|].
      split; [congruence|]. split; [congruence|]. split; [congruence|].
      exists (S k). split; [lia|]. split.
      * rewrite Hl', Hl, <- app_assoc. reflexivity.
      * split; [|intros Hd; discriminate Hd].
        intros H. rewrite (Hall H). reflexivity.
Qed.


Lemma ik_restarts_all_fail (P : ArmState -> Prop) (point : list Q) (uo : bool)
    (n : nat) :
  (forall sv h rnd, P h ->
     snd (snd (IK sv h point rnd uo)) = false
     /\ P (snd (fst (IK sv h point rnd uo)))) ->
  forall (c : Ctl) (hypo : ArmState) (sol : list Q * bool),
    P hypo -> snd sol = false ->
    snd (snd (ik_restarts n c hypo point uo sol)) = false.
Proof.
  intros Hfail. induction n as [|n IH]; intros c hypo sol Hh Hs; simpl.
  - exact Hs.
  - rewrite Hs. unfold call_IK.
    destruct (Hfail (solver c) hypo true Hh) as [Hf Hp].
    destruct (IK (solver c) hypo point true uo) as [[sv h1] s1].
    simpl in Hf, Hp. apply IH; assumption.
Qed.

(** X12.  When [IK] fails for the pose from every configuration it can be
    handed ([P] describes them: it holds of the model and [IK] keeps it),
    a target pose at a safe configuration makes exactly 26 calls, the
    first from the current configuration and 25 from random ones, then
    publishes the popup "No IK solution"; the planner is neither called
    nor changed and the model is not written. *)
Theorem ik_failure_reported
    (P : ArmState -> Prop) (c : Ctl) (msg : TargetOrientation) :
  is_safe (solver c) (state c) = true ->
  P (state c) ->
  (forall sv h rnd, P h ->
     snd (snd (IK sv h [tgt_x msg; tgt_y msg; tgt_z msg;
                        tgt_alpha msg; tgt_beta msg; tgt_gamma msg]
                  rnd (use_orientation msg))) = false
     /\ P (snd (fst (IK sv h [tgt_x msg; tgt_y msg; tgt_z msg;
                              tgt_alpha msg; tgt_beta msg; tgt_gamma msg]
                        rnd (use_orientation msg))))) ->
  lcm_ (target_orientation_callback c msg) =
    lcm_ c ++ CallIK false :: repeat (CallIK true) 25 ++
    [Publish "/debug_message" (MsgDebug (mkDebugMessage false "No IK solution"))]
  /\ motion_planner (target_orientation_callback c msg) = motion_planner c
  /\ state (target_orientation_callback c msg) = state c
  /\ enable_execute (target_orientation_callback c msg) = false.
Proof.
  intros Hsafe HP Hfail. unfold target_orientation_callback.
  rewrite Hsafe. simpl negb. cbv iota.
  match goal with |- context [call_IK ?c0 ?h ?p ?r ?u] =>
    destruct (call_IK_events c0 h p r u) as (Hf1 & _ & _ & Hm1 & Hl1 & He1);
    assert (Hh1 : P (snd (fst (call_IK c0 h p r u))))
      by (unfold call_IK; simpl;
          destruct (Hfail (solver c) (state c) false HP) as [_ Hq];
          destruct (IK _ _ _ _ _) as [[sv0 h0] s0]; exact Hq);
    destruct (call_IK c0 h p r u) as [[c2 h1] s1] end.
  simpl in Hf1, Hm1, Hl1, He1, Hh1.
  assert (Hs1 : snd s1 = false).
  { rewrite He1. apply (Hfail (solver c) (state c) false HP). }
  match goal with |- context [ik_restarts ?n ?c0 ?h ?p ?u ?sl] =>
    pose proof (ik_restarts_all_fail P p u n Hfail c0 h sl Hh1 Hs1) as Hs2;
    destruct (ik_restarts_events n c0 h p u sl)
      as (Hf2 & _ & _ & Hm2 & k & Hk & Hl2 & Hall & _);
    destruct (ik_restarts n c0 h p u sl) as [[c3 h2] s2] end.
  simpl in Hf2, Hm2, Hl2, Hall, Hs2.
  rewrite Hs2. simpl negb. cbv iota. simpl.
  rewrite (Hall Hs2) in Hl2.
  destruct (command_frame_trans _ _ _ Hf1 Hf2) as (Hst & Hen & _).
  split; [rewrite Hl2, Hl1; simpl; rewrite <- !app_assoc; reflexivity|].
  split; [congruence|]. split; [exact Hst | exact Hen].
Qed.

(** ** Starting and cancelling an execution *)

Lemma arm_position_callback_enable (c : Ctl) (msg : ArmPosition) :
  enable_execute (arm_position_callback c msg) = enable_execute c.
Proof.
  unfold arm_position_callback.
  pose proof (sanitize_frame c msg) as Hf.
  destruct (sanitize c msg) as [c5 a3]. simpl in Hf.
  destruct Hf as (_ & _ & _ & _ & He & _).
  destruct (negb (previewing c5)); [|exact He].
  simpl. destruct (FK _ _) as [sv st]. simpl. exact He.
Qed.

Lemma target_orientation_callback_enable (c : Ctl) (msg : TargetOrientation) :
  enable_execute c = false ->
  enable_execute (target_orientation_callback c msg) = false.
Proof.
  intros He. unfold target_orientation_callback.
  destruct (negb (is_safe (solver c) (state c))); [exact He|].
  match goal with |- context [call_IK ?c0 ?h ?p ?r ?u] =>
    destruct (call_IK_events c0 h p r u) as (Hf1 & _);
    destruct (call_IK c0 h p r u) as [[c2 h1] s1] end.
  simpl in Hf1.
  match goal with |- context [ik_restarts ?n ?c0 ?h ?p ?u ?sl] =>
    destruct (ik_restarts_events n c0 h p u sl) as (Hf2 & _);
    destruct (ik_restarts n c0 h p u sl) as [[c3 h2] s2] end.
  simpl in Hf2.
  destruct (command_frame_trans _ _ _ Hf1 Hf2) as (_ & Hen & _).
  simpl in Hen.
  destruct (negb (snd s2)); [exact Hen|].
  destruct (plan_path_events c3 h2 (fst s2)) as ((_ & Hen3 & _) & _).
  congruence.
Qed.

(** X13.  [enable_execute] is switched on by nothing but a
    [motion_execute] message with [preview = false]: no encoder message,
    target, mode or lock message, and no pass of the executor or of the
    encoder echo, starts an execution. *)
Theorem only_confirmation_starts_execution (s : Ctl * Executor) (i : Input) :
  enable_execute (fst s) = false ->
  enable_execute (fst (step s i)) = true ->
  exists msg, i = InMotionExecute msg /\ preview_flag msg = false.
Proof.
  destruct s as [c e]. simpl. intros Hoff Hon.
  destruct i; simpl in Hon.
  - rewrite arm_position_callback_enable in Hon. congruence.
  - rewrite target_orientation_callback_enable in Hon by exact Hoff.
    discriminate.
  - unfold target_angles_callback in Hon.
    destruct (plan_path_events (set_enable_execute c false)
                (state (set_enable_execute c false)) (msg_angles msg))
      as ((_ & He & _) & _).
    rewrite He in Hon. discriminate.
  - exists msg. split; [reflexivity|].
    unfold motion_execute_callback in Hon.
    destruct (preview_flag msg); [congruence | reflexivity].
  - unfold ik_enabled_callback in Hon. simpl in Hon.
    destruct (negb (enabled msg)); simpl in Hon; congruence.
  - unfold simulation_mode_callback in Hon. simpl in Hon. congruence.
  - unfold lock_joints_callback in Hon. simpl in Hon. congruence.
  - unfold ra_control_callback in Hon. simpl in Hon. congruence.
  - unfold execute_spline_tick in Hon. rewrite Hoff in Hon. simpl in Hon.
    congruence.
  - unfold encoder_angles_sender_tick in Hon.
    destruct (sim_mode c); simpl in Hon; congruence.
Qed.

(** ** A message that raises no error *)



(** ** The executor *)

Lemma clamp_within (lo hi x : Q) :
  lo <= hi -> lo <= clamp lo hi x /\ clamp lo hi x <= hi.
Proof.
  intros H. unfold clamp.
  destruct (Qlt_b x lo) eqn:E1; [lra|].
  destruct (Qlt_b hi x) eqn:E2; [lra|].
  apply Qlt_b_false in E1, E2. lra.
Qed.

(** X14.  The setpoint of a pass lies within the limits of every joint
    for which the spline returned an angle (limits given in order): it is
    this clamped vector that the pass hands to [set_joint_angles] in
    simulation mode and converts to encoder units in hardware mode. *)
Theorem setpoint_within_limits (c : Ctl) (e : Executor) (i : nat) :
  (i < 6)%nat ->
  (i < List.length (get_spline_pos (motion_planner c)
                      (xadd (spline_t e) (pace c e))))%nat ->
  nth 0 (get_joint_limits (state c) i) 0 <= nth 1 (get_joint_limits (state c) i) 0 ->
  nth 0 (get_joint_limits (state c) i) 0 <= nth i (commanded c e) 0
  /\ nth i (commanded c e) 0 <= nth 1 (get_joint_limits (state c) i) 0.
Proof.
  intros Hi Hlen Hlh. unfold commanded.
  rewrite clamp_to_limits_nth by assumption.
  apply clamp_within, Hlh.
Qed.

Lemma in_repeat_eq {A : Type} (x y : A) (n : nat) : In y (repeat x n) -> y = x.
Proof. apply repeat_spec. Qed.

(** X15.  A pass of the executor writes the model only in simulation mode
    and addresses the motors only in hardware mode: in hardware mode the
    model is left as it was and nothing goes out on /arm_position, in
    simulation mode nothing goes out on /ik_ra_control.  The solver and
    the planner are never written. *)
Theorem executor_mode_discipline (c : Ctl) (e : Executor) :
  let c' := fst (execute_spline_tick c e) in
  solver c' = solver c
  /\ motion_planner c' = motion_planner c
  /\ exists evs,
       lcm_ c' = lcm_ c ++ evs
       /\ (sim_mode c = false ->
           state c' = state c
           /\ forall m, ~ In (Publish "/arm_position" m) evs)
       /\ (sim_mode c = true ->
           forall m, ~ In (Publish "/ik_ra_control" m) evs).
Proof.
  unfold execute_spline_tick.
  destruct (enable_execute c).
  2:{ simpl. repeat split. exists []. rewrite app_nil_r.
      repeat split; auto. }
  destruct (encoder_error c).
  - unfold abort_on_encoder_error. simpl sim_mode.
    destruct (sim_mode c) eqn:Hsim.
    + rewrite publish_config_repeated. simpl. repeat split.
      eexists. split; [rewrite <- app_assoc; simpl; reflexivity|].
      split; [intros Hd; discriminate Hd|].
      intros _ m [H | H]; [discriminate H|].
      apply in_repeat_eq in H. discriminate H.
    + simpl. repeat split. eexists. split; [reflexivity|].
      split; [|intros Hd; discriminate Hd].
      intros _. split; [reflexivity|]. intros m [H | []]. discriminate H.
  - rewrite advance_spline_unfold. cbv zeta.
    destruct (xgt _ _).
    + simpl. repeat split. eexists. split; [reflexivity|].
      split.
      * intros _. split; [reflexivity|]. intros m [H | []]. discriminate H.
      * intros _ m [H | []]. discriminate H.
    + destruct (sim_mode c) eqn:Hsim; simpl.
      * repeat split. eexists. split; [rewrite <- app_assoc; simpl; reflexivity|].
        split; [intros Hd; discriminate Hd|].
        intros _ m [H | [H | []]]; discriminate H.
      * repeat split. eexists.
        split; [rewrite <- !app_assoc; simpl; reflexivity|].
        split; [|intros Hd; discriminate Hd].
        intros _. split; [reflexivity|].
        intros m [H | [H | [H | []]]]; discriminate H.
Qed.

Lemma for_range_ext {S : Type} (body body' : nat -> S -> S) (n : nat) :
  forall (lo : nat) (s : S),
    (forall i x, (lo <= i < lo + n)%nat -> body i x = body' i x) ->
    for_range lo n body s = for_range lo n body' s.
Proof.
  induction n as [|n IH]; intros lo s H.
  - reflexivity.
  - rewrite !for_range_S, IH by (intros; apply H; lia).
    apply H. lia.
Qed.

(** X16.  The pacing of a pass looks at joints a to e only: the largest
    travel time is the same for any two pairs of current and look-ahead
    vectors that agree on their first five entries, whatever joint f
    does. *)
Theorem pacing_ignores_joint_f
    (st : ArmState) (init init' final final' : list Q) :
  (forall i, (i < 5)%nat ->
     nth i init 0 = nth i init' 0 /\ nth i final 0 = nth i final' 0) ->
  max_time_of st init final = max_time_of st init' final'.
Proof.
  intros H. unfold max_time_of. apply for_range_ext.
  intros i x Hi. unfold joint_time.
  destruct (H i) as [H1 H2]; [lia|]. rewrite H1, H2. reflexivity.
Qed.

Lemma max_time_of_zero (st : ArmState) (init final : list Q) :
  (forall k, (k < 5)%nat -> 0 < get_joint_max_speed st k) ->
  (forall i, (i < 5)%nat -> nth i final 0 == nth i init 0) ->
  exists m, max_time_of st init final = Fin m /\ m == 0.
Proof.
  intros Hs Hsame. unfold max_time_of.
  assert (H : forall n, (n <= 5)%nat ->
            exists m,
              for_range 0 n (fun i max_time =>
                let jt := joint_time st init final i in
                if xlt max_time jt then jt else max_time) (Fin (-1)) = Fin m
              /\ (n = 0%nat -> m == -1)
              /\ ((0 < n)%nat -> m == 0)).
  { induction n as [|n IH]; intros Hn.
    - exists (-1). split; [reflexivity|]. split; [reflexivity | lia].
    - destruct IH as (m & Hm & H0 & Hpos); [lia|].
      rewrite for_range_S, Hm. change (0 + n)%nat with n. cbv zeta.
      rewrite joint_time_fin by (apply Hs; lia).
      unfold xlt.
      assert (Hjt : Qabs (nth n final 0 - nth n init 0)
                    / (get_joint_max_speed st n * 3 / 4 / 1000) == 0).
      { rewrite (Hsame n) by lia.
        setoid_replace (nth n init 0 - nth n init 0) with 0 by ring.
        unfold Qdiv. change (Qabs 0) with 0. ring. }
      set (jt := Qabs (nth n final 0 - nth n init 0)
                 / (get_joint_max_speed st n * 3 / 4 / 1000)) in *.
      destruct (Qlt_b m jt) eqn:E.
      + exists jt. split; [reflexivity|]. split; [lia | intros _; exact Hjt].
      + apply Qlt_b_false in E. exists m. split; [reflexivity|].
        split; [lia|]. intros _.
        destruct n as [|n'].
        * specialize (H0 eq_refl). lra.
        * apply Hpos. lia. }
  destruct (H 5%nat) as (m & Hm & _ & Hz); [lia|].
  exists m. split; [exact Hm | apply Hz; lia].
Qed.

(** X17.  When the look-ahead point equals the current angles on joints a
    to e, the largest travel time is 0 and the increment, a division by
    it, is infinite: the pass ends the execution at once.  It clears
    [enable_execute] and [ik_enabled], puts the spline parameter back to
    0 and issues no setpoint; its only event is the look-ahead query. *)
Theorem zero_travel_ends_execution (c : Ctl) (e : Executor) (t : Q) :
  0 < D_SPLINE_T -> 0 < SPLINE_WAIT_TIME ->
  (forall k, (k < 5)%nat -> 0 < get_joint_max_speed (state c) k) ->
  enable_execute c = true -> encoder_error c = false ->
  spline_t e = Fin t ->
  (forall i, (i < 5)%nat ->
     nth i (lookahead c e) 0 == nth i (get_joint_angles (state c)) 0) ->
  let c' := fst (execute_spline_tick c e) in
  let e' := snd (execute_spline_tick c e) in
  enable_execute c' = false
  /\ ik_enabled c' = false
  /\ spline_t e' = Fin 0
  /\ state c' = state c
  /\ lcm_ c' = lcm_ c ++ [CallSpline (Fin (t + D_SPLINE_T))].
Proof.
  intros HD HW Hs Hen Herr Ht Hsame.
  destruct (max_time_of_zero (state c) (get_joint_angles (state c))
              (lookahead c e) Hs Hsame) as (m & Hm & Hz).
  assert (Hp : pace c e = PosInf).
  { unfold pace. rewrite Hm. simpl. rewrite (Qeq_bool_pos _ HW).
    assert (E : Qeq_bool (m / SPLINE_WAIT_TIME) 0 = true).
    { apply Qeq_bool_iff. rewrite Hz. unfold Qdiv. ring. }
    rewrite E, (Qeq_bool_pos _ HD).
    replace (Qlt_b 0 D_SPLINE_T) with true
      by (symmetry; apply Qlt_b_true; exact HD).
    reflexivity. }
  unfold execute_spline_tick.
  rewrite Hen, Herr, advance_spline_unfold, Ht, Hp. simpl.
  repeat split; reflexivity.
Qed.

Lemma pace_positive (c : Ctl) (e : Executor) (dt : Q) :
  0 < D_SPLINE_T -> 0 < SPLINE_WAIT_TIME ->
  (forall k, (k < 5)%nat -> 0 < get_joint_max_speed (state c) k) ->
  pace c e = Fin dt -> 0 < dt.
Proof.
  intros HD HW Hs Hp.
  destruct (max_time_of_bound (state c) (get_joint_angles (state c))
              (lookahead c e) Hs) as (m & Hm & Hb).
  unfold pace in Hp. rewrite Hm in Hp. simpl in Hp.
  rewrite (Qeq_bool_pos _ HW) in Hp.
  destruct (Qeq_bool (m / SPLINE_WAIT_TIME) 0) eqn:E.
  { rewrite (Qeq_bool_pos _ HD) in Hp.
    destruct (Qlt_b 0 D_SPLINE_T); discriminate. }
  apply Qeq_bool_neq in E. injection Hp as Hdt.
  assert (Hm0 : 0 <= m).
  { eapply Qle_trans; [|apply (Hb 0%nat); lia].
    apply Qle_shift_div_l; [apply pacing_speed_pos, Hs; lia|].
    rewrite Qmult_0_l. apply Qabs_nonneg. }
  assert (Hmne : ~ m == 0).
  { intros Hz. apply E. rewrite Hz. unfold Qdiv. ring. }
  assert (Hmpos : 0 < m) by (destruct (Qlt_le_dec 0 m) as [H|H]; [exact H|];
                              exfalso; apply Hmne; lra).
  rewrite <- Hdt. apply Qlt_shift_div_l.
  - apply Qlt_shift_div_l; [exact HW | lra].
  - lra.
Qed.

(** X18.  A pass that leaves the execution running has moved the spline
    parameter strictly forward, to a value that is still at most 1
    (positive pacing constants and top speeds). *)
Theorem continuing_pass_advances (c : Ctl) (e : Executor) (t : Q) :
  0 < D_SPLINE_T -> 0 < SPLINE_WAIT_TIME ->
  (forall k, (k < 5)%nat -> 0 < get_joint_max_speed (state c) k) ->
  enable_execute c = true -> encoder_error c = false ->
  spline_t e = Fin t ->
  enable_execute (fst (execute_spline_tick c e)) = true ->
  exists t', spline_t (snd (execute_spline_tick c e)) = Fin t'
             /\ t < t' /\ t' <= 1.
Proof.
  intros HD HW Hs Hen Herr Ht Hon.
  unfold execute_spline_tick in *.
  rewrite Hen, Herr, advance_spline_unfold, Ht in *. cbv zeta in *.
  destruct (pace_shape c e HD HW) as [Hp | [dt Hp]].
  - rewrite Hp in Hon. simpl in Hon. discriminate.
  - pose proof (pace_positive c e dt HD HW Hs Hp) as Hdt.
    rewrite Hp in *. simpl xadd in *. unfold xgt, xlt in *.
    destruct (Qlt_b 1 (t + dt)) eqn:E.
    + simpl in Hon. discriminate.
    + apply Qlt_b_false in E. exists (t + dt).
      split; [destruct (sim_mode c); reflexivity|]. split; lra.
Qed.

End HandlerFacts.

(* ================================================================== *)
(** * The controller on the small arm *)

Module RigRuns.

Import Rig.

Ltac by_eval := vm_compute; reflexivity.
Ltac each_by_eval := repeat (split; [by_eval|]); by_eval.
Ltac q_le := apply Qle_bool_iff; by_eval.
Ltac q_eq := apply Qeq_bool_iff; by_eval.
Ltac q_lt := apply Qlt_b_true; by_eval.

(** ** Pacing *)

(** C1, instance: the first pass along the straight plan moves joint a by
    no more than its bound. *)
Lemma straight_plan_within_rate :
  Qabs (nth 0 (commanded (fst (executing false)) (snd (executing false))) 0
        - nth 0 (get_joint_angles (state (fst (executing false)))) 0)
  <= rate_bound (state (fst (executing false))) 0.
Proof.
  refine (proj2 (paced_setpoint_within_rate
                   (fst (executing false)) (snd (executing false))
                   0 (12000 # 400000) 0 _ _ _ _ _ _ _ _)).
  - reflexivity.
  - reflexivity.
  - intros k Hk. do 5 (destruct k as [|k]; [by_eval|]). lia.
  - lia.
  - by_eval.
  - by_eval.
  - split; q_le.
  - q_eq.
Defined.

(** C1, counterexample: on the eased plan the executor is running without
    encoder error in simulation mode; the setpoint of its first pass,
    which becomes the state of the model, moves joint a by
    1350/24389 rad, more than the bound of 0.015 rad. *)
Lemma eased_plan_exceeds_rate :
  enable_execute (fst (executing true)) = true
  /\ encoder_error (fst (executing true)) = false
  /\ sim_mode (fst (executing true)) = true
  /\ get_joint_angles
       (state (fst (execute_spline_tick (fst (executing true))
                                        (snd (executing true)))))
     = commanded (fst (executing true)) (snd (executing true))
  /\ ~ (Qabs (nth 0 (commanded (fst (executing true)) (snd (executing true))) 0
              - nth 0 (get_joint_angles (state (fst (executing true)))) 0)
        <= rate_bound (state (fst (executing true))) 0).
Proof.
  split; [by_eval|]. split; [by_eval|]. split; [by_eval|]. split; [by_eval|].
  apply Qlt_not_le. q_lt.
Qed.

(** A preview draws 50 frames, and the planned run ends at parameter
    0.99 with the execution switched off by the pass after. *)
Example preview_draws_50_frames :
  List.length (filter is_frame (lcm_ (fst (executing false)))) = 50%nat.
Proof. by_eval. Qed.

Example straight_run_finishes :
  enable_execute (fst (run near_the_end [ExecutorTick])) = true
  /\ enable_execute (fst (run near_the_end [ExecutorTick; ExecutorTick])) = false
  /\ spline_t (snd (run near_the_end [ExecutorTick; ExecutorTick])) = Fin 0.
Proof. each_by_eval. Qed.

(** ** Confirmation messages *)

(** C2, counterexample: the controller is executing; a [motion_execute]
    message with [preview = true] leaves [enable_execute] set. *)
Lemma preview_message_does_not_cancel :
  enable_execute (fst (executing false)) = true
  /\ enable_execute
       (motion_execute_callback (fst (executing false)) preview_only) = true.
Proof. each_by_eval. Qed.

(** ** Unsafe start *)

(** C3, instance: the arm rests beyond a limit; a target pose yields the
    one popup and nothing else. *)
Lemma overbent_start_rejected :
  lcm_ (target_orientation_callback (fst (boot overbent false)) a_pose)
  = [Publish "/debug_message"
       (MsgDebug (mkDebugMessage false "Unsafe Starting Position"))]
  /\ enable_execute
       (target_orientation_callback (fst (boot overbent false)) a_pose) = false
  /\ previewing
       (target_orientation_callback (fst (boot overbent false)) a_pose) = false.
Proof.
  destruct (unsafe_start_rejected (fst (boot overbent false)) a_pose)
    as (Hlog & _ & _ & _ & _ & Hen & Hpv & _).
  - by_eval.
  - split; [exact Hlog|]. split; [exact Hen | exact Hpv].
Defined.

(** ** The encoder guard *)

(** C4, instance: the verdict on joint a for the outlier. *)
Lemma outlier_verdict :
  nth 0 (faulty_encoders (arm_position_callback windows_full outlier)) false = true
  <-> (MAX_FISHY_VALS <
       List.length
         (filter (violated (nth 0 (snd (checked_readings windows_full outlier)) 0%Q)
                           (nth 0 (prev_angles windows_full) []))
                 (seq 0 MAX_NUM_PREV_ANGLES)))%nat.
Proof.
  refine (proj1 (fault_needs_more_than_allowed windows_full outlier 0 _ _ _)).
  - vm_compute. lia.
  - by_eval.
  - lia.
Defined.

(** C4, counterexample: all six windows hold five readings of 0.2 and no
    error is pending; one message whose reading for joint a is 2 raises
    [encoder_error] and marks the joint, by itself. *)
Lemma single_outlier_raises_error :
  prev_angles windows_full = repeat (repeat 0.2 5) 6
  /\ encoder_error windows_full = false
  /\ encoder_error (arm_position_callback windows_full outlier) = true
  /\ nth 0 (faulty_encoders (arm_position_callback windows_full outlier)) false
     = true.
Proof. each_by_eval. Qed.

(** A limit breach raises the flag on its own, with no comparison failed
    and no joint marked, and the next message clears it. *)
Example limit_breach_raises_and_clears :
  encoder_error (arm_position_callback windows_high past_limit) = true
  /\ faulty_encoders (arm_position_callback windows_high past_limit)
     = repeat false 6
  /\ encoder_error
       (arm_position_callback (arm_position_callback windows_high past_limit)
                              back_inside) = false.
Proof. each_by_eval. Qed.

(** Scenario 3 of the specification: a dud reading is replaced by the
    angle of the model and raises nothing. *)
Example dud_reading_is_replaced :
  encoder_error (arm_position_callback windows_full dud_on_c) = false
  /\ nth 2 (snd (sanitize windows_full dud_on_c)) 0
     = get_joint_angle (state windows_full) 2.
Proof. each_by_eval. Qed.

(** C5, instance: joint a and the outlier. *)
Lemma outlier_stored_and_substituted :
  nth 0 (prev_angles (arm_position_callback windows_full outlier)) [] =
    push_reading (nth 0 (snd (checked_readings windows_full outlier)) 0)
                 (nth 0 (prev_angles windows_full) [])
  /\ (nth 0 (faulty_encoders (arm_position_callback windows_full outlier)) false
      = true ->
      nth 0 (snd (sanitize windows_full outlier)) 0
      = get_joint_angle (state windows_full) 0).
Proof.
  destruct (window_keeps_reading_model_gets_substitute windows_full outlier 0)
    as (Hpush & Hsub & _).
  - by_eval.
  - lia.
  - split; [exact Hpush | exact Hsub].
Defined.

(** C5, counterexample: the outlier marks joint a; the angle handed on is
    the model's 0.2, yet the value at the front of the window is the
    reading 2. *)
Lemma window_front_is_the_raw_reading :
  nth 0 (faulty_encoders (arm_position_callback windows_full outlier)) false = true
  /\ nth 0 (snd (sanitize windows_full outlier)) 0 == 0.2
  /\ get_joint_angle (state windows_full) 0 == 0.2
  /\ hd 0 (nth 0 (prev_angles (arm_position_callback windows_full outlier)) [])
     == 2
  /\ ~ (hd 0 (nth 0 (prev_angles (arm_position_callback windows_full outlier)) [])
        == nth 0 (snd (sanitize windows_full outlier)) 0).
Proof.
  split; [by_eval|]. split; [q_eq|]. split; [q_eq|]. split; [q_eq|].
  intros H. apply Qeq_bool_iff in H. vm_compute in H. discriminate.
Qed.

(** C6, instance: the message after the outlier fails neither check, so
    the flag that was set is cleared. *)
Lemma flag_cleared_after_outlier :
  encoder_error
    (arm_position_callback (set_encoder_error after_outlier true) steady)
  = false.
Proof.
  apply not_true_is_false. intros E.
  apply (proj1 (encoder_error_decided_by_each_message after_outlier steady true
                  ltac:(vm_compute; reflexivity))) in E.
  destruct E as [E | [(Hlt & _) | (_ & j & Hj & Hf)]].
  - vm_compute in E. discriminate E.
  - vm_compute in Hlt. lia.
  - do 6 (destruct j as [|j]; [vm_compute in Hf; lia|]). lia.
Defined.

(** While the windows are filling one failed comparison is enough: two
    readings are stored and a flag is pending; a message that passes the
    limit check and fails one comparison of joint a leaves the flag set. *)
Example one_failed_comparison_while_filling :
  prev_angles windows_filling = repeat [0.2; 0.2] 6
  /\ encoder_error (fst (checked_readings windows_filling nudged)) = false
  /\ filter (violated 0.5 [0.2; 0.2]) (seq 0 2) = [0%nat]
  /\ encoder_error
       (arm_position_callback (set_encoder_error windows_filling true) nudged)
     = true.
Proof. each_by_eval. Qed.

(** C6, counterexample: the outlier has raised [encoder_error]; the very
    next message clears it, while the window of joint a still holds the
    outlier next to a single new reading. *)
Lemma error_cleared_by_next_message :
  encoder_error after_outlier = true
  /\ encoder_error (arm_position_callback after_outlier steady) = false
  /\ nth 0 (prev_angles (arm_position_callback after_outlier steady)) []
     = [0.2; 2; 0.2; 0.2; 0.2].
Proof. each_by_eval. Qed.

(** ** Encoder units *)

(** A multiplier of -1 and an offset of 0.3: the setpoint comes back. *)
Lemma mirrored_round_trip :
  nth 0 (intake mirrored (emitted_setpoint mirrored unit_angles)) 0
  == nth 0 unit_angles 0.
Proof.
  refine (setpoint_round_trip mirrored unit_angles 0 _ _ _).
  - reflexivity.
  - lia.
  - q_eq.
Defined.

(** C7, at the failing input: joint a has an encoder multiplier of 2 and
    an offset of 0.3.  The intake mapping [(raw - 0.3) * 2] reads the raw
    value 0.8 as the angle 1, so the inverse sends 1 to 0.8; lines
    312-315 send it to 2.3, which is read back as 4.  In a run in
    hardware mode the first pass of the executor commands 0.015 rad for
    joint a and publishes 0.33 on /ik_ra_control, which the intake
    mapping reads as 0.06. *)
Lemma geared_round_trip_fails :
  joint_a (emitted_setpoint geared unit_angles) == 2.3
  /\ nth 0 (intake geared (emitted_setpoint geared unit_angles)) 0 == 4
  /\ ~ (nth 0 (intake geared (emitted_setpoint geared unit_angles)) 0
        == nth 0 unit_angles 0)
  /\ nth 0 (intake geared (reading 0.8 1 1 1 1 1)) 0 == 1
  /\ sim_mode (fst geared_start) = false
  /\ nth 0 (commanded (fst geared_start) (snd geared_start)) 0 == 0.015
  /\ exists p,
       last (lcm_ (fst (run geared_start [ExecutorTick]))) CallFK
       = Publish "/ik_ra_control" (MsgArmPosition p)
       /\ joint_a p == 0.33
       /\ nth 0 (intake geared p) 0 == 0.06.
Proof.
  split; [q_eq|]. split; [q_eq|].
  split. { intros H. apply Qeq_bool_iff in H. vm_compute in H. discriminate. }
  split; [q_eq|]. split; [by_eval|]. split; [q_eq|].
  exists (mkArmPosition (660 # 2000) (-0.009) (3 # 250) 0 (3 # 500) 0).
  split; [by_eval|]. split; q_eq.
Qed.

(** ** The end of the spline *)

(** C9, instance: after 32 passes along the straight plan the parameter
    is 0.96; the state is reachable, the executor is running, and the
    next pass opens with a look-ahead beyond 1. *)
Lemma lookahead_beyond_one_is_reached :
  reachable near_the_end
  /\ parameter_of (snd near_the_end) == 0.96
  /\ exists rest,
       lcm_ (fst (execute_spline_tick (fst near_the_end) (snd near_the_end)))
       = lcm_ (fst near_the_end)
         ++ CallSpline (Fin (parameter_of (snd near_the_end) + D_SPLINE_T))
            :: rest
       /\ 1 < parameter_of (snd near_the_end) + D_SPLINE_T.
Proof.
  split.
  { exists home, 0%nat, (mkPlan false (angles home) (angles home)), false,
           ""%string,
           ([InTargetAngles far_goal; InMotionExecute confirm]
              ++ repeat ExecutorTick 32).
    unfold near_the_end, executing, run. rewrite fold_left_app. reflexivity. }
  split; [q_eq|].
  destruct (lookahead_leaves_unit_interval
              (fst near_the_end) (snd near_the_end)
              (parameter_of (snd near_the_end)))
    as (rest & Hlog & Hgt & _).
  - reflexivity.
  - reflexivity.
  - by_eval.
  - by_eval.
  - by_eval.
  - exists rest. split; [exact Hlog|]. apply Hgt. q_lt.
Defined.

(** ** Abort on encoder error *)



(** ** Further runs *)

(** X1, instance: the dud reading of joint c. *)
Lemma dud_on_c_replaced :
  nth 2 (check_dud_encoder windows_full (msg_angles dud_on_c)) 0
  = get_joint_angle (state windows_full) 2.
Proof.
  refine (proj1 (dud_readings_take_model_angle
                   windows_full (msg_angles dud_on_c) 2 _) _).
  - vm_compute. lia.
  - exists 0. split; [vm_compute; left; reflexivity | q_lt].
Defined.


(** X3, instance: a reading of 3.06 is past the limit by more than the
    tolerance. *)
Lemma past_limit_raises_error :
  encoder_error (fst (check_joint_limits windows_full (msg_angles past_limit)))
  = true.
Proof.
  refine (proj2 (limit_check_raises_error_iff
                   windows_full (msg_angles past_limit) _) _).
  - intros i Hi. vm_compute in Hi.
    do 6 (destruct i as [|i]; [q_le|]). lia.
  - right. exists 0%nat. split; [vm_compute; lia|].
    right. split; [q_lt | q_le].
Defined.

(** X4, instance: the outlier against windows of two readings. *)
Lemma outlier_while_filling :
  nth 0 (faulty_encoders (arm_position_callback windows_filling outlier)) false
  = true.
Proof.
  destruct (filling_window_fault_rule windows_filling outlier 0)
    as (_ & Hmark).
  - vm_compute. lia.
  - by_eval.
  - lia.
  - apply Hmark.
    + vm_compute. discriminate.
    + exists 0%nat. split; [vm_compute; lia | by_eval].
Defined.

(** X5, instance: the window of joint a after the outlier. *)
Lemma window_after_outlier :
  nth 0 (prev_angles (arm_position_callback windows_full outlier)) [] =
  nth 0 (snd (checked_readings windows_full outlier)) 0
  :: firstn (MAX_NUM_PREV_ANGLES - 1) (nth 0 (prev_angles windows_full) []).
Proof.
  refine (message_window windows_full outlier 0 _ _ _ _).
  - by_eval.
  - lia.
  - vm_compute. lia.
  - vm_compute. lia.
Defined.

(** X6, instance: the state after five messages. *)
Lemma windows_after_five_messages :
  exists n, (n <= MAX_NUM_PREV_ANGLES)%nat
    /\ forall j, (j < 6)%nat ->
         List.length
           (nth j (prev_angles
                     (fst (run (boot home false)
                               (repeat (InArmPosition steady) 5)))) [])
         = n.
Proof.
  refine (proj2 (proj2 (reachable_windows
                          (run (boot home false)
                               (repeat (InArmPosition steady) 5)) _ _))).
  - vm_compute. lia.
  - exists home, 0%nat, (mkPlan false (angles home) (angles home)), false,
           EmptyString, (repeat (InArmPosition steady) 5).
    reflexivity.
Defined.

(** X7, instance: a healthy message. *)
Lemma steady_message_publishes :
  lcm_ (arm_position_callback windows_full steady) =
  lcm_ windows_full ++
  [CallFK;
   Publish "/fk_transform"
     (MsgFKTransform
        (map (get_joint_transform
                (state (arm_position_callback windows_full steady)))
             (seq 0 6)))].
Proof.
  refine (encoder_message_publishes_transforms windows_full steady _).
  by_eval.
Defined.

(** X10, instance: a joint target beyond a limit. *)
Lemma out_of_reach_is_reported :
  lcm_ (target_angles_callback (fst (boot home false)) out_of_reach) =
    [CallRRT;
     Publish "/debug_message"
       (MsgDebug (mkDebugMessage false "Unable to plan path!"))]
  /\ previewing (target_angles_callback (fst (boot home false)) out_of_reach)
     = false.
Proof.
  destruct (plan_failure_reported (fst (boot home false)) out_of_reach)
    as (Hlog & Hpv & _).
  - by_eval.
  - split; [exact Hlog | exact Hpv].
Defined.


(** X12, instance: a pose no configuration of the arm reaches. *)
Lemma unreachable_pose_is_reported :
  lcm_ (target_orientation_callback (fst (boot home false)) unreachable_pose) =
    CallIK false :: repeat (CallIK true) 25 ++
    [Publish "/debug_message" (MsgDebug (mkDebugMessage false "No IK solution"))].
Proof.
  refine (proj1 (ik_failure_reported same_joints (fst (boot home false))
                   unreachable_pose _ _ _)).
  - by_eval.
  - reflexivity.
  - intros sv h rnd Hh. unfold same_joints in *.
    simpl. rewrite Hh. simpl. split; [reflexivity | exact Hh].
Defined.

(** X13, instance: the confirmation of a fresh controller. *)
Lemma confirmation_starts :
  exists msg, InMotionExecute confirm = InMotionExecute msg
              /\ preview_flag msg = false.
Proof.
  refine (only_confirmation_starts_execution
            (boot home false) (InMotionExecute confirm) _ _).
  - by_eval.
  - by_eval.
Defined.

(** X14, instance: joint a on the first pass of the straight plan. *)
Lemma first_setpoint_within_limits :
  nth 0 (get_joint_limits (state (fst (executing false))) 0) 0
    <= nth 0 (commanded (fst (executing false)) (snd (executing false))) 0
  /\ nth 0 (commanded (fst (executing false)) (snd (executing false))) 0
     <= nth 1 (get_joint_limits (state (fst (executing false))) 0) 0.
Proof.
  refine (setpoint_within_limits (fst (executing false)) (snd (executing false))
            0 _ _ _).
  - lia.
  - vm_compute. lia.
  - q_le.
Defined.

(** X16, instance: two vectors that differ in joint f only. *)
Lemma joint_f_does_not_pace :
  max_time_of home six six = max_time_of home six_but_f six.
Proof.
  refine (pacing_ignores_joint_f home six six_but_f six six _).
  intros i Hi. do 5 (destruct i as [|i]; [split; reflexivity|]). lia.
Defined.

(** X17, instance: a target equal to the current configuration. *)
Lemma in_place_run_ends_at_once :
  enable_execute (fst (execute_spline_tick (fst executing_in_place)
                                           (snd executing_in_place))) = false
  /\ lcm_ (fst (execute_spline_tick (fst executing_in_place)
                                    (snd executing_in_place)))
     = lcm_ (fst executing_in_place) ++ [CallSpline (Fin (0 + D_SPLINE_T))].
Proof.
  destruct (zero_travel_ends_execution
              (fst executing_in_place) (snd executing_in_place) 0)
    as (Hen & _ & _ & _ & Hlog).
  - by_eval.
  - by_eval.
  - intros k Hk. do 5 (destruct k as [|k]; [by_eval|]). lia.
  - by_eval.
  - by_eval.
  - by_eval.
  - intros i Hi.
    do 5 (destruct i as [|i]; [apply Qeq_bool_iff; by_eval|]). lia.
  - split; [exact Hen | exact Hlog].
Defined.

(** X18, instance: the first pass of the straight plan. *)
Lemma first_pass_advances :
  exists t', spline_t (snd (execute_spline_tick (fst (executing false))
                                                (snd (executing false))))
             = Fin t'
             /\ 0 < t' /\ t' <= 1.
Proof.
  refine (continuing_pass_advances (fst (executing false))
            (snd (executing false)) 0 _ _ _ _ _ _ _).
  - by_eval.
  - by_eval.
  - intros k Hk. do 5 (destruct k as [|k]; [by_eval|]). lia.
  - by_eval.
  - by_eval.
  - by_eval.
  - by_eval.
Defined.


End RigRuns.
